(** * go-bstree: a binary search tree container (bstree.go)

    Shallow embedding of the Go package [bstree] and of the tree builders of
    its test file, followed by the properties of its specification.

    Modelling conventions.
    - Go's [int] is taken at its size on 64-bit targets: a [Z] kept in
      [[-2^63, 2^63)] by [wrap], the two's complement wrap-around that
      every arithmetic operation applies.
    - [interface{}] values are an arbitrary type [A]; the two ordering
      callbacks are boolean functions on [A].
    - [*_Node] is the type [ptr]: [nil], or the address of a [_Node] struct.
      Nodes are owned by exactly one parent, so a pointer is represented by
      the struct it points to, and a store through a pointer by returning
      the updated struct.
    - A method with receiver [tree *Tree] is a computation [M X] that takes
      the tree and returns its result together with the tree it leaves.
    - A [Visitor] is a side-effecting callback: a transformer of the state
      [S] of the environment it closes over.
    - [sync.RWMutex] is not represented: the model is sequential. *)

From Stdlib Require Import ZArith List Bool Lia Sorted Permutation.
From Equations Require Import Equations.
Import ListNotations.

Set Implicit Arguments.
Local Open Scope Z_scope.

(** ** Go's [int] *)

Module GoInt.

Definition int_bits : Z := 64.
Definition min_int : Z := - 2 ^ (int_bits - 1).
Definition max_int : Z := 2 ^ (int_bits - 1) - 1.

(** Two's complement wrap-around of an arithmetic result. *)
Definition wrap (z : Z) : Z :=
  (z + 2 ^ (int_bits - 1)) mod 2 ^ int_bits - 2 ^ (int_bits - 1).

Definition add (a b : Z) : Z := wrap (a + b).
Definition sub (a b : Z) : Z := wrap (a - b).
(** Go's [/] truncates toward zero. *)
Definition quo (a b : Z) : Z := wrap (Z.quot a b).

Definition in_range (z : Z) : Prop := min_int <= z <= max_int.

End GoInt.

(** ** Nodes and trees *)

Module bstree.

Section Nodes.

Variable A : Type.

(** [type _Node struct { value interface{}; left *_Node; right *_Node }] *)
Inductive _Node : Type :=
  Build_Node (value : A) (left right : ptr)
with ptr : Type :=
| nil : ptr
| addr (node : _Node) : ptr.

Definition value (node : _Node) : A :=
  let (v, _, _) := node in v.
Definition left (node : _Node) : ptr :=
  let (_, l, _) := node in l.
Definition right (node : _Node) : ptr :=
  let (_, _, r) := node in r.

Definition new_Node (v : A) : ptr := addr (Build_Node v nil nil).

(** [type Tree struct { root; smaller; larger; size; mutex }] *)
Record Tree : Type := Build_Tree {
  root : ptr;
  smaller : A -> A -> bool;
  larger : A -> A -> bool;
  size : Z
}.

(** [func New(smaller Smaller, larger Larger) *Tree] *)
Definition New (smaller : A -> A -> bool) (larger : A -> A -> bool) : Tree :=
  Build_Tree nil smaller larger 0.

(** Computations on a tree: the result and the tree left behind. *)
Definition M (X : Type) : Type := Tree -> X * Tree.

Definition ret {X} (x : X) : M X := fun tree => (x, tree).
Definition bind {X Y} (m : M X) (k : X -> M Y) : M Y :=
  fun tree => let (x, tree') := m tree in k x tree'.
Definition eval {X} (m : M X) (tree : Tree) : X := fst (m tree).
Definition exec {X} (m : M X) (tree : Tree) : Tree := snd (m tree).

(** [func (tree *Tree) Size() int] *)
Definition Size : M Z := fun tree => (size tree, tree).

(** [func (tree *Tree) doExists(node *_Node, value interface{}) bool] *)
Fixpoint doExists (tree : Tree) (node : ptr) (v : A) : bool :=
  match node with
  | nil => false
  | addr n =>
      if smaller tree v (value n) then doExists tree (left n) v
      else if larger tree v (value n) then doExists tree (right n) v
      else true
  end.

(** [func (tree *Tree) Exists(value interface{}) bool] *)
Definition Exists (v : A) : M bool :=
  fun tree => (doExists tree (root tree) v, tree).

Definition set_root (tree : Tree) (node : ptr) : Tree :=
  Build_Tree node (smaller tree) (larger tree) (size tree).
Definition set_size (tree : Tree) (n : Z) : Tree :=
  Build_Tree (root tree) (smaller tree) (larger tree) n.

(** [func (tree *Tree) doInsert(node *_Node, value interface{}) bool]

    The store [node.left = new_Node(value)] (resp. [node.right]) is the
    only write; the function returns the node as the call leaves it
    together with the boolean the Go function returns. *)
Fixpoint doInsert (tree : Tree) (node : ptr) (v : A) : ptr * bool :=
  match node with
  | nil => (nil, false)
  | addr n =>
      if smaller tree v (value n) then
        match left n with
        | nil => (addr (Build_Node (value n) (new_Node v) (right n)), true)
        | addr _ =>
            let (l, ok) := doInsert tree (left n) v in
            (addr (Build_Node (value n) l (right n)), ok)
        end
      else if larger tree v (value n) then
        match right n with
        | nil => (addr (Build_Node (value n) (left n) (new_Node v)), true)
        | addr _ =>
            let (r, ok) := doInsert tree (right n) v in
            (addr (Build_Node (value n) (left n) r), ok)
        end
      else (node, false)
  end.

(** [func (tree *Tree) Insert(value interface{}) bool] *)
Definition Insert (v : A) : M bool :=
  fun tree =>
    match root tree with
    | nil =>
        let tree := set_root tree (new_Node v) in
        (true, set_size tree (GoInt.add (size tree) 1))
    | addr _ =>
        let (node, ok) := doInsert tree (root tree) v in
        let tree := set_root tree node in
        if ok then (true, set_size tree (GoInt.add (size tree) 1))
        else (false, tree)
    end.

(** The loop [for node.left != nil { node = node.left }] of [Minimum]. *)
Fixpoint Minimum_loop (node : _Node) : _Node :=
  match left node with
  | nil => node
  | addr l => Minimum_loop l
  end.

(** [func (tree *Tree) Minimum() interface{}]; Go's [nil] result is
    [None]. *)
Definition Minimum : M (option A) :=
  fun tree =>
    match root tree with
    | nil => (None, tree)
    | addr node => (Some (value (Minimum_loop node)), tree)
    end.

(** The loop [for node.right != nil { node = node.right }] of [Maximum]. *)
Fixpoint Maximum_loop (node : _Node) : _Node :=
  match right node with
  | nil => node
  | addr r => Maximum_loop r
  end.

(** [func (tree *Tree) Maximum() interface{}] *)
Definition Maximum : M (option A) :=
  fun tree =>
    match root tree with
    | nil => (None, tree)
    | addr node => (Some (value (Maximum_loop node)), tree)
    end.

(** [func (tree *Tree) doDepth(node *_Node) int] *)
Fixpoint doDepth (tree : Tree) (node : ptr) : Z :=
  match node with
  | nil => 0
  | addr n =>
      let left := doDepth tree (left n) in
      let right := doDepth tree (right n) in
      if left >? right then GoInt.add left 1 else GoInt.add right 1
  end.

(** [func (tree *Tree) Depth() int] *)
Definition Depth : M Z := fun tree => (doDepth tree (root tree), tree).

(** *** Traversals *)

(** [type Traversal int32] with the constants of the [iota] block. *)
Definition Traversal : Type := Z.
Definition PreOrder : Traversal := 1.
Definition InOrder : Traversal := 2.
Definition PostOrder : Traversal := 3.
Definition LevelOrder : Traversal := 4.

Section Visiting.

(** The state of the environment a visitor acts on. *)
Variable S : Type.

(** [type Visitor func(interface{})] *)
Definition Visitor : Type := A -> S -> S.

Fixpoint doPreOrder (tree : Tree) (node : ptr) (visitor : Visitor) (s : S) : S :=
  match node with
  | nil => s
  | addr n =>
      let s := visitor (value n) s in
      let s := doPreOrder tree (left n) visitor s in
      doPreOrder tree (right n) visitor s
  end.

Fixpoint doInOrder (tree : Tree) (node : ptr) (visitor : Visitor) (s : S) : S :=
  match node with
  | nil => s
  | addr n =>
      let s := doInOrder tree (left n) visitor s in
      let s := visitor (value n) s in
      doInOrder tree (right n) visitor s
  end.

Fixpoint doPostOrder (tree : Tree) (node : ptr) (visitor : Visitor) (s : S) : S :=
  match node with
  | nil => s
  | addr n =>
      let s := doPostOrder tree (left n) visitor s in
      let s := doPostOrder tree (right n) visitor s in
      visitor (value n) s
  end.

(** The FIFO queue of [container/list]: front at the head. *)
Definition PushBack (queue : list _Node) (node : _Node) : list _Node :=
  queue ++ [node].

(** Number of nodes reachable from a pointer. *)
Fixpoint nodes (node : ptr) : nat :=
  match node with
  | nil => O
  | addr n => Datatypes.S (nodes (left n) + nodes (right n))
  end.

(** Nodes still to be visited from a queue: the measure of the loop. *)
Definition pending (queue : list _Node) : nat :=
  list_sum (map (fun n => nodes (addr n)) queue).

(** The loop [for queue.Len() > 0 { ... }] of [doLevelOrder]. *)
Equations? doLevelOrder_loop (visitor : Visitor) (queue : list _Node) (s : S) : S
  by wf (pending queue) lt :=
  doLevelOrder_loop visitor [] s := s;
  doLevelOrder_loop visitor (node :: queue) s :=
    let s := visitor (value node) s in
    let queue :=
      match left node with
      | nil => queue
      | addr l => PushBack queue l
      end in
    let queue :=
      match right node with
      | nil => queue
      | addr r => PushBack queue r
      end in
    doLevelOrder_loop visitor queue s.
Proof.
  repeat match goal with x := _ |- _ => subst x end.
  destruct node as [v [|l] [|r]]; cbn [left right];
    unfold pending, PushBack; rewrite ?map_app, ?list_sum_app;
    simpl; lia.
Qed.

(** [func (tree *Tree) doLevelOrder(visitor Visitor)] *)
Definition doLevelOrder (tree : Tree) (visitor : Visitor) (s : S) : S :=
  match root tree with
  | nil => s
  | addr node => doLevelOrder_loop visitor (PushBack [] node) s
  end.

(** [func (tree *Tree) Traverse(traversal Traversal, visitor Visitor)];
    a [switch] without [default] does nothing on other values. *)
Definition Traverse (traversal : Traversal) (visitor : Visitor) (s : S) : M S :=
  fun tree =>
    (if traversal =? PreOrder then doPreOrder tree (root tree) visitor s
     else if traversal =? InOrder then doInOrder tree (root tree) visitor s
     else if traversal =? PostOrder then doPostOrder tree (root tree) visitor s
     else if traversal =? LevelOrder then doLevelOrder tree visitor s
     else s,
     tree).

End Visiting.

End Nodes.

Arguments nil {A}.

End bstree.

(** ** The tree builders of the test file *)

Module bstree_test.

Import bstree.

(** [IntSmaller] and [IntLarger], on values that hold an [int]. *)
Definition IntSmaller (value other : Z) : bool := value <? other.
Definition IntLarger (value other : Z) : bool := value >? other.

(** [func EmptyTree() *Tree] *)
Definition EmptyTree : Tree Z := New IntSmaller IntLarger.

(** [func doCompleteTree(tree *Tree, begin int, end int)].  The recursion
    is on machine integers, so it is bounded by [fuel]; [None] is "out of
    fuel". *)
Fixpoint doCompleteTree (fuel : nat) (tree : Tree Z) (begin end_ : Z)
  : option (Tree Z) :=
  match fuel with
  | O => None
  | Datatypes.S fuel =>
      if begin >? end_ then Some tree
      else
        let mid := GoInt.quo (GoInt.add begin end_) 2 in
        let tree := exec (Insert mid) tree in
        match doCompleteTree fuel tree begin (GoInt.sub mid 1) with
        | None => None
        | Some tree => doCompleteTree fuel tree (GoInt.add mid 1) end_
        end
  end.

(** [func CompleteTree(count int) *Tree] *)
Definition CompleteTree (fuel : nat) (count : Z) : option (Tree Z) :=
  doCompleteTree fuel EmptyTree 1 count.

(** The outcome of a call that may panic, or that asks the random source
    for more values than it was given. *)
Inductive outcome (X : Type) : Type :=
| Returns (x : X)
| Panics
| Starves.

Arguments Panics {X}.
Arguments Starves {X}.

(** The loop [for tree.Size() < count { tree.Insert(rand.Intn(max)) }] of
    [RandomTree].  [draws] are the values the calls of [rand.Intn(max)]
    return, in order; [rand.Intn] panics when [max <= 0]. *)
Fixpoint RandomTree_loop (draws : list Z) (tree : Tree Z) (count max : Z)
  : outcome (Tree Z) :=
  if eval (@Size Z) tree <? count then
    match draws with
    | [] => Starves
    | d :: draws =>
        if max <=? 0 then Panics
        else RandomTree_loop draws (exec (Insert d) tree) count max
    end
  else Returns tree.

(** [func RandomTree(count int, max int) *Tree] *)
Definition RandomTree (draws : list Z) (count max : Z) : outcome (Tree Z) :=
  if count >? max then Panics
  else RandomTree_loop draws EmptyTree count max.

End bstree_test.

(** ** Vocabulary of the specification *)

Module bstree_spec.

Import bstree.

Section Vocabulary.

Variable A : Type.

(** The visitor that records, in order, the values it is applied to. *)
Definition record : Visitor A (list A) := fun v log => log ++ [v].

(** The sequence of values [Traverse] applies its visitor to. *)
Definition visited (tree : Tree A) (traversal : Traversal) : list A :=
  eval (Traverse traversal record []) tree.

(** A sequence of [Insert] calls, with the booleans they return. *)
Fixpoint Inserts (vs : list A) : M A (list bool) :=
  match vs with
  | [] => ret []
  | v :: vs =>
      bind (Insert v) (fun ok =>
      bind (Inserts vs) (fun oks => ret (ok :: oks)))
  end.

(** The tree built from the empty tree by inserting [vs] in order. *)
Definition build (smaller larger : A -> A -> bool) (vs : list A) : Tree A :=
  exec (Inserts vs) (New smaller larger).

Definition count_true (oks : list bool) : nat :=
  length (filter (fun ok => ok) oks).

(** A consistent strict ordering: [smaller] is irreflexive and
    transitive, and [larger] is its converse. *)
Record StrictOrdering (smaller larger : A -> A -> bool) : Prop := {
  smaller_irrefl : forall a, smaller a a = false;
  smaller_trans : forall a b c,
    smaller a b = true -> smaller b c = true -> smaller a c = true;
  larger_converse : forall a b, larger a b = smaller b a
}.

(** Every value of the list is smaller than all the values after it. *)
Definition ascending (smaller : A -> A -> bool) (l : list A) : Prop :=
  StronglySorted (fun x y => smaller x y = true) l.

(** No value of the list is smaller than a value before it. *)
Definition non_decreasing (smaller : A -> A -> bool) (l : list A) : Prop :=
  StronglySorted (fun x y => smaller y x = false) l.

(** A position in a tree: the nodes on the way down from the root, each
    with the side taken and the subtree left aside. *)
Inductive position : Type :=
| Here
| InLeft (v : A) (below : position) (r : ptr A)
| InRight (v : A) (l : ptr A) (below : position).

(** The tree with [node] at the position. *)
Fixpoint plug (pos : position) (node : ptr A) : ptr A :=
  match pos with
  | Here => node
  | InLeft v below r => addr (Build_Node v (plug below node) r)
  | InRight v l below => addr (Build_Node v l (plug below node))
  end.

(** The position [inner] taken inside the slot at position [outer]. *)
Fixpoint compose (outer inner : position) : position :=
  match outer with
  | Here => inner
  | InLeft v below r => InLeft v (compose below inner) r
  | InRight v l below => InRight v l (compose below inner)
  end.

(** The position is the one the descent for [v] reaches: left where
    [smaller] holds, right where it does not and [larger] holds. *)
Fixpoint descent (tree : Tree A) (v : A) (pos : position) : Prop :=
  match pos with
  | Here => True
  | InLeft x below _ => smaller tree v x = true /\ descent tree v below
  | InRight x _ below =>
      smaller tree v x = false /\ larger tree v x = true /\
      descent tree v below
  end.

(** [v] compares neither smaller nor larger than the node's value. *)
Definition neither (tree : Tree A) (v : A) (n : _Node A) : Prop :=
  smaller tree v (value n) = false /\ larger tree v (value n) = false.

(** Values stored under a pointer, left to right. *)
Fixpoint values (node : ptr A) : list A :=
  match node with
  | nil => []
  | addr n => values (left n) ++ value n :: values (right n)
  end.

(** Longest path from a pointer down to a leaf, counted in nodes. *)
Fixpoint height (node : ptr A) : nat :=
  match node with
  | nil => O
  | addr n => Datatypes.S (Nat.max (height (left n)) (height (right n)))
  end.

(** The ordering invariant of the data model: below every node, the
    left subtree holds values smaller than the node's and the right
    subtree values larger than it. *)
Fixpoint ordered (smaller larger : A -> A -> bool) (node : ptr A) : Prop :=
  match node with
  | nil => True
  | addr n =>
      Forall (fun x => smaller x (value n) = true) (values (left n)) /\
      Forall (fun x => larger x (value n) = true) (values (right n)) /\
      ordered smaller larger (left n) /\ ordered smaller larger (right n)
  end.

(** The values of [vs] whose [Insert] returned true. *)
Definition accepted (vs : list A) (oks : list bool) : list A :=
  map fst (filter snd (combine vs oks)).

(** The children a node has, left before right. *)
Definition children (node : _Node A) : list (_Node A) :=
  match left node with nil => [] | addr l => [l] end ++
  match right node with nil => [] | addr r => [r] end.

(** The values stored [k] links below a pointer, left to right. *)
Fixpoint level (k : nat) (node : ptr A) {struct node} : list A :=
  match node with
  | nil => []
  | addr n =>
      match k with
      | O => [value n]
      | Datatypes.S k => level k (left n) ++ level k (right n)
      end
  end.

(** Neither predicate holds of a value against itself. *)
Definition irreflexive (smaller larger : A -> A -> bool) : Prop :=
  forall a, smaller a a = false /\ larger a a = false.

End Vocabulary.

End bstree_spec.

(** * Properties *)

Import bstree bstree_test bstree_spec.

(** ** Go's [int] *)

Lemma wrap_in_range z : GoInt.in_range z -> GoInt.wrap z = z.
Proof.
  unfold GoInt.in_range, GoInt.wrap, GoInt.min_int, GoInt.max_int, GoInt.int_bits.
  change (2 ^ (64 - 1)) with 9223372036854775808.
  change (2 ^ 64) with 18446744073709551616.
  intros H. rewrite Z.mod_small; lia.
Qed.

Lemma max_int_value : GoInt.max_int = 9223372036854775807.
Proof. reflexivity. Qed.

Lemma min_int_value : GoInt.min_int = -9223372036854775808.
Proof. reflexivity. Qed.

(** ** Induction on pointers *)

Section PtrInd.

Variable A : Type.
Variable P : ptr A -> Prop.
Hypothesis P_nil : P nil.
Hypothesis P_addr : forall v l r, P l -> P r -> P (addr (Build_Node v l r)).

Lemma ptr_induction : forall node, P node.
Proof.
  fix IH 1. intros [|[v l r]].
  - exact P_nil.
  - apply P_addr; apply IH.
Qed.

End PtrInd.

(** ** Traversals as sequences of visits *)

Section Visits.

Variable A : Type.
Variable tree : Tree A.

Lemma doInOrder_record node log :
  doInOrder tree node (@record A) log = log ++ values node.
Proof.
  revert log. induction node as [|v l r IHl IHr] using ptr_induction;
    intros log; simpl.
  - now rewrite app_nil_r.
  - rewrite IHl, IHr. unfold record. now rewrite <- !app_assoc.
Qed.

Lemma doPreOrder_record node log :
  doPreOrder tree node (@record A) log
  = log ++ doPreOrder tree node (@record A) [].
Proof.
  revert log. induction node as [|v l r IHl IHr] using ptr_induction;
    intros log; simpl.
  - now rewrite app_nil_r.
  - rewrite IHr, IHl. rewrite (IHr (doPreOrder _ _ _ _)), (IHl (record _ _)).
    unfold record. simpl. now rewrite <- !app_assoc.
Qed.

Lemma doPostOrder_record node log :
  doPostOrder tree node (@record A) log
  = log ++ doPostOrder tree node (@record A) [].
Proof.
  revert log. induction node as [|v l r IHl IHr] using ptr_induction;
    intros log; simpl.
  - now rewrite app_nil_r.
  - rewrite IHr, IHl. rewrite (IHr (doPostOrder _ _ _ _)).
    unfold record. simpl. now rewrite <- !app_assoc.
Qed.

Lemma doLevelOrder_loop_step (node : _Node A) queue :
  exists queue',
    (pending queue' < pending (node :: queue))%nat /\
    forall S (visitor : Visitor A S) s,
      doLevelOrder_loop visitor (node :: queue) s
      = doLevelOrder_loop visitor queue' (visitor (value node) s).
Proof.
  exists (match right node with
          | nil => match left node with
                   | nil => queue
                   | addr l => PushBack queue l
                   end
          | addr r => PushBack (match left node with
                                | nil => queue
                                | addr l => PushBack queue l
                                end) r
          end).
  split.
  - destruct node as [v [|l] [|r]]; cbn [left right];
      unfold pending, PushBack; rewrite ?map_app, ?list_sum_app;
      simpl; lia.
  - intros S visitor s. simp doLevelOrder_loop. cbv zeta.
    destruct (right node); reflexivity.
Qed.

Lemma doLevelOrder_loop_record queue log :
  doLevelOrder_loop (@record A) queue log
  = log ++ doLevelOrder_loop (@record A) queue [].
Proof.
  remember (pending queue) as n eqn:Hn. revert queue log Hn.
  induction n as [n IH] using lt_wf_ind. intros [|node queue] log Hn.
  - simp doLevelOrder_loop. now rewrite app_nil_r.
  - destruct (doLevelOrder_loop_step node queue) as (queue' & Hlt & Hstep).
    rewrite !Hstep. subst n.
    rewrite (IH _ Hlt _ (record (value node) log) eq_refl).
    rewrite (IH _ Hlt _ (record (value node) []) eq_refl).
    unfold record. simpl. now rewrite <- app_assoc.
Qed.

Variable S : Type.
Variable visitor : Visitor A S.

Lemma doInOrder_fold node s :
  doInOrder tree node visitor s = fold_left (fun s v => visitor v s) (values node) s.
Proof.
  revert s. induction node as [|v l r IHl IHr] using ptr_induction;
    intros s; simpl; trivial.
  now rewrite fold_left_app, IHl, IHr.
Qed.

Lemma doPreOrder_fold node s :
  doPreOrder tree node visitor s
  = fold_left (fun s v => visitor v s) (doPreOrder tree node (@record A) []) s.
Proof.
  revert s. induction node as [|v l r IHl IHr] using ptr_induction;
    intros s; simpl; trivial.
  rewrite doPreOrder_record, (doPreOrder_record l).
  rewrite !fold_left_app, IHl, IHr. reflexivity.
Qed.

Lemma doPostOrder_fold node s :
  doPostOrder tree node visitor s
  = fold_left (fun s v => visitor v s) (doPostOrder tree node (@record A) []) s.
Proof.
  revert s. induction node as [|v l r IHl IHr] using ptr_induction;
    intros s; simpl; trivial.
  unfold record at 1. rewrite (doPostOrder_record r).
  rewrite !fold_left_app, IHl, IHr. reflexivity.
Qed.

Lemma doLevelOrder_loop_fold queue s :
  doLevelOrder_loop visitor queue s
  = fold_left (fun s v => visitor v s)
              (doLevelOrder_loop (@record A) queue []) s.
Proof.
  remember (pending queue) as n eqn:Hn. revert queue s Hn.
  induction n as [n IH] using lt_wf_ind. intros [|node queue] s Hn.
  - simp doLevelOrder_loop. reflexivity.
  - destruct (doLevelOrder_loop_step node queue) as (queue' & Hlt & Hstep).
    rewrite !Hstep, doLevelOrder_loop_record, fold_left_app. subst n.
    simpl. eapply IH; [exact Hlt|reflexivity].
Qed.

(** Whatever the visitor, [Traverse] applies it to the values of
    [visited], one after the other. *)
Lemma Traverse_visits traversal s :
  eval (Traverse traversal visitor s) tree
  = fold_left (fun s v => visitor v s) (visited tree traversal) s.
Proof.
  unfold visited, eval, Traverse. simpl.
  destruct (traversal =? PreOrder); [apply doPreOrder_fold|].
  destruct (traversal =? InOrder).
  { rewrite doInOrder_fold, doInOrder_record. reflexivity. }
  destruct (traversal =? PostOrder); [apply doPostOrder_fold|].
  destruct (traversal =? LevelOrder); [|reflexivity].
  unfold doLevelOrder. destruct (root tree); [reflexivity|].
  apply doLevelOrder_loop_fold.
Qed.

Lemma visited_InOrder : visited tree InOrder = values (root tree).
Proof.
  unfold visited, eval, Traverse. simpl. apply doInOrder_record.
Qed.

End Visits.

(** ** The descent of [doInsert] and [doExists] *)

Section Descent.

Variable A : Type.
Variable tree : Tree A.
Variable v : A.

Lemma doInsert_descent node :
  node <> nil ->
  (exists pos, node = plug pos nil /\ descent tree v pos /\
               doInsert tree node v = (plug pos (new_Node v), true))
  \/
  (exists pos n, node = plug pos (addr n) /\ descent tree v pos /\
                 neither tree v n /\ doInsert tree node v = (node, false)).
Proof.
  induction node as [|x l r IHl IHr] using ptr_induction; intros Hnode.
  - congruence.
  - cbn [doInsert value left right].
    destruct (smaller tree v x) eqn:Hs; [|destruct (larger tree v x) eqn:Hl].
    + destruct l as [|ln].
      * left. exists (InLeft x (Here A) r). simpl. auto.
      * destruct IHl as [(pos & E & D & R)|(pos & n & E & D & N & R)];
          [discriminate| |]; rewrite R.
        -- left. exists (InLeft x pos r). simpl. rewrite <- E. auto.
        -- right. exists (InLeft x pos r), n. simpl. rewrite <- E. auto.
    + destruct r as [|rn].
      * left. exists (InRight x l (Here A)). simpl. auto.
      * destruct IHr as [(pos & E & D & R)|(pos & n & E & D & N & R)];
          [discriminate| |]; rewrite R.
        -- left. exists (InRight x l pos). simpl. rewrite <- E. auto.
        -- right. exists (InRight x l pos), n. simpl. rewrite <- E. auto.
    + right. exists (Here A), (Build_Node x l r). simpl.
      unfold neither. simpl. auto.
Qed.

Lemma Insert_descent :
  (exists pos, root tree = plug pos nil /\ descent tree v pos /\
     Insert v tree
     = (true, Build_Tree (plug pos (new_Node v)) (smaller tree) (larger tree)
                         (GoInt.add (size tree) 1)))
  \/
  (exists pos n, root tree = plug pos (addr n) /\ descent tree v pos /\
     neither tree v n /\ Insert v tree = (false, tree)).
Proof.
  unfold Insert. destruct (root tree) as [|node] eqn:Hroot.
  - left. exists (Here A). simpl. auto.
  - destruct (@doInsert_descent (addr node))
      as [(pos & E & D & R)|(pos & n & E & D & N & R)];
      [discriminate| |]; rewrite R.
    + left. exists pos. split; [congruence|]. split; [exact D|]. reflexivity.
    + right. exists pos, n. split; [congruence|]. split; [exact D|].
      split; [exact N|]. simpl. rewrite <- Hroot. f_equal.
      unfold set_root. now destruct tree.
Qed.

Lemma doExists_descent node :
  doExists tree node v = true <->
  exists pos n, node = plug pos (addr n) /\ descent tree v pos /\ neither tree v n.
Proof.
  split.
  - induction node as [|x l r IHl IHr] using ptr_induction;
      cbn [doExists value left right]; [discriminate|].
    destruct (smaller tree v x) eqn:Hs; [|destruct (larger tree v x) eqn:Hl];
      intros H.
    + destruct (IHl H) as (pos & n & E & D & N).
      exists (InLeft x pos r), n. simpl. rewrite <- E. auto.
    + destruct (IHr H) as (pos & n & E & D & N).
      exists (InRight x l pos), n. simpl. rewrite <- E. auto.
    + exists (Here A), (Build_Node x l r). unfold neither. simpl. auto.
  - intros (pos & n & E & D & Hs & Hl). subst node.
    induction pos as [|x below IH r|x l below IH]; simpl in *.
    + destruct n as [x l r]. simpl in *. now rewrite Hs, Hl.
    + destruct D as [Hx D]. rewrite Hx. auto.
    + destruct D as (Hx & Hy & D). rewrite Hx, Hy. auto.
Qed.

(** A descent that ends on a missing slot finds nothing. *)
Lemma doExists_missing pos :
  descent tree v pos -> doExists tree (plug pos nil) v = false.
Proof.
  induction pos as [|x below IH r|x l below IH]; simpl; trivial.
  - intros [Hx D]. rewrite Hx. auto.
  - intros (Hx & Hy & D). rewrite Hx, Hy. auto.
Qed.

(** [Insert] returns true exactly when [Exists] returns false. *)
Lemma Insert_negb_Exists :
  eval (Insert v) tree = negb (eval (Exists v) tree).
Proof.
  unfold eval at 2. unfold Exists. cbn [fst]. unfold eval.
  destruct Insert_descent
    as [(pos & E & D & R)|(pos & n & E & D & N & R)]; rewrite R; cbn [fst].
  - rewrite E, doExists_missing; trivial.
  - symmetry. apply negb_false_iff. apply doExists_descent. eauto.
Qed.

End Descent.

(** ** Values and node counts at a position *)

Section Plug.

Variable A : Type.

Lemma values_plug (pos : position A) :
  exists before after,
    forall node, values (plug pos node) = before ++ values node ++ after.
Proof.
  induction pos as [|x below [b [a IH]] r|x l below [b [a IH]]].
  - exists [], []. intros node. simpl. now rewrite app_nil_r.
  - exists b, (a ++ x :: values r). intros node. simpl.
    rewrite IH. now rewrite <- !app_assoc.
  - exists (values l ++ x :: b), a. intros node. simpl.
    rewrite IH. now rewrite <- !app_assoc.
Qed.

Lemma nodes_plug (pos : position A) node :
  nodes (plug pos node) = (nodes (plug pos nil) + nodes node)%nat.
Proof.
  induction pos as [|x below IH r|x l below IH]; simpl; lia.
Qed.

End Plug.

(** ** Sorted lists *)

Section SortedLists.

Variable A : Type.
Variables R R' : A -> A -> Prop.

Lemma StronglySorted_app l1 l2 :
  StronglySorted R l1 -> StronglySorted R l2 ->
  (forall a b, In a l1 -> In b l2 -> R a b) ->
  StronglySorted R (l1 ++ l2).
Proof.
  induction l1 as [|a l1 IH]; simpl; intros H1 H2 H12; trivial.
  inversion_clear H1 as [|? ? Hs Hf]. constructor.
  - apply IH; auto.
  - apply Forall_app. split; trivial.
    apply Forall_forall. intros b Hb. apply H12; auto.
Qed.

Lemma StronglySorted_weaken l :
  (forall a b, R a b -> R' a b) -> StronglySorted R l -> StronglySorted R' l.
Proof.
  intros HR. induction 1 as [|a l Hs IH Hf]; constructor; trivial.
  eapply Forall_impl; [|exact Hf]. auto.
Qed.

End SortedLists.

(** ** The ordering invariant *)

Section Ordering.

Variable A : Type.
Variables smaller larger : A -> A -> bool.

Lemma plug_ordered (tree : Tree A) v pos :
  smaller = bstree.smaller tree -> larger = bstree.larger tree ->
  descent tree v pos ->
  ordered smaller larger (plug pos nil) ->
  ordered smaller larger (plug pos (new_Node v)).
Proof.
  intros -> ->.
  induction pos as [|x below IH r|x l below IH]; simpl.
  - auto.
  - intros [Hx D] (Hl & Hr & Ol & Or). repeat split; auto.
    destruct (values_plug below) as (b & a & E).
    rewrite E in *. simpl in *.
    apply Forall_app in Hl. destruct Hl as [Hb Ha].
    apply Forall_app. split; trivial. constructor; trivial.
  - intros (Hx & Hy & D) (Hl & Hr & Ol & Or). repeat split; auto.
    destruct (values_plug below) as (b & a & E).
    rewrite E in *. simpl in *.
    apply Forall_app in Hr. destruct Hr as [Hb Ha].
    apply Forall_app. split; trivial. constructor; trivial.
Qed.

Lemma Insert_ordered (tree : Tree A) v :
  smaller = bstree.smaller tree -> larger = bstree.larger tree ->
  ordered smaller larger (root tree) ->
  let tree' := exec (Insert v) tree in
  smaller = bstree.smaller tree' /\ larger = bstree.larger tree' /\
  ordered smaller larger (root tree').
Proof.
  intros Hs Hl Ho. unfold exec.
  destruct (Insert_descent tree v)
    as [(pos & E & D & R)|(pos & n & E & D & N & R)]; rewrite R; simpl.
  - repeat split; trivial. rewrite E in Ho. eapply plug_ordered; eauto.
  - auto.
Qed.

Lemma Inserts_ordered vs : forall tree : Tree A,
  smaller = bstree.smaller tree -> larger = bstree.larger tree ->
  ordered smaller larger (root tree) ->
  let tree' := exec (Inserts vs) tree in
  smaller = bstree.smaller tree' /\ larger = bstree.larger tree' /\
  ordered smaller larger (root tree').
Proof.
  induction vs as [|v vs IH]; intros tree Hs Hl Ho; simpl.
  - auto.
  - destruct (Insert_ordered tree v Hs Hl Ho) as (Hs1 & Hl1 & Ho1).
    unfold exec in *. unfold bind.
    destruct (Insert v tree) as [ok tree1]. simpl in *.
    specialize (IH tree1 Hs1 Hl1 Ho1).
    destruct (Inserts vs tree1) as [oks tree2]. simpl in *. exact IH.
Qed.

Hypothesis strict : StrictOrdering smaller larger.

Lemma smaller_asym a b : smaller a b = true -> smaller b a = false.
Proof.
  intros Hab. destruct (smaller b a) eqn:Hba; trivial.
  rewrite <- (smaller_irrefl strict a). symmetry.
  eapply smaller_trans; eauto.
Qed.

Lemma ordered_ascending node :
  ordered smaller larger node -> ascending smaller (values node).
Proof.
  unfold ascending.
  induction node as [|x l r IHl IHr] using ptr_induction; simpl.
  - constructor.
  - intros (Hl & Hr & Ol & Or).
    assert (Hxr : Forall (fun y => smaller x y = true) (values r)).
    { eapply Forall_impl; [|exact Hr]. simpl. intros y Hy.
      now rewrite (larger_converse strict) in Hy. }
    apply StronglySorted_app; auto.
    + constructor; auto.
    + intros a b Ha [<-|Hb].
      * eapply Forall_forall in Hl; eauto.
      * eapply smaller_trans; [exact strict| |].
        -- eapply Forall_forall in Hl; eauto.
        -- eapply Forall_forall in Hxr; eauto.
Qed.

Lemma ascending_non_decreasing l :
  ascending smaller l -> non_decreasing smaller l.
Proof. apply StronglySorted_weaken. exact smaller_asym. Qed.

End Ordering.

(** ** Sequences of inserts *)

Section Sequences.

Variable A : Type.

Lemma Inserts_cons (v : A) vs tree :
  Inserts (v :: vs) tree
  = let (ok, tree1) := Insert v tree in
    let (oks, tree2) := Inserts vs tree1 in
    (ok :: oks, tree2).
Proof.
  simpl. unfold bind, ret. destruct (Insert v tree) as [ok tree1].
  now destruct (Inserts vs tree1).
Qed.

Lemma Insert_values (v : A) tree :
  let (ok, tree') := Insert v tree in
  Permutation (values (root tree'))
              (if ok then v :: values (root tree) else values (root tree)).
Proof.
  destruct (Insert_descent tree v)
    as [(pos & E & D & R)|(pos & n & E & D & N & R)]; rewrite R; simpl.
  - rewrite E. destruct (values_plug pos) as (b & a & H).
    rewrite !H. simpl. symmetry. apply Permutation_middle.
  - reflexivity.
Qed.

Lemma Inserts_values (vs : list A) : forall tree,
  let (oks, tree') := Inserts vs tree in
  Permutation (values (root tree')) (values (root tree) ++ accepted vs oks).
Proof.
  induction vs as [|v vs IH]; intros tree.
  - simpl. unfold ret, accepted. simpl. now rewrite app_nil_r.
  - rewrite Inserts_cons. pose proof (Insert_values v tree) as Hv.
    destruct (Insert v tree) as [ok tree1]. specialize (IH tree1).
    destruct (Inserts vs tree1) as [oks tree2].
    rewrite IH. unfold accepted. simpl.
    destruct ok; simpl; rewrite Hv.
    + simpl. apply Permutation_middle.
    + reflexivity.
Qed.

Lemma Insert_size (v : A) tree :
  size tree = Z.of_nat (nodes (root tree)) ->
  Z.of_nat (nodes (root tree)) < GoInt.max_int ->
  let (ok, tree') := Insert v tree in
  size tree' = size tree + (if ok then 1 else 0) /\
  size tree' = Z.of_nat (nodes (root tree')).
Proof.
  intros Hsize Hmax.
  destruct (Insert_descent tree v)
    as [(pos & E & D & R)|(pos & n & E & D & N & R)]; rewrite R; simpl.
  - unfold GoInt.add. rewrite wrap_in_range.
    + split; trivial. rewrite nodes_plug. rewrite E in Hsize. simpl. lia.
    + unfold GoInt.in_range. rewrite min_int_value. lia.
  - lia.
Qed.

Lemma Inserts_size (vs : list A) : forall tree,
  size tree = Z.of_nat (nodes (root tree)) ->
  Z.of_nat (nodes (root tree)) + Z.of_nat (length vs) <= GoInt.max_int ->
  let (oks, tree') := Inserts vs tree in
  size tree' = size tree + Z.of_nat (count_true oks) /\
  size tree' = Z.of_nat (nodes (root tree')).
Proof.
  induction vs as [|v vs IH]; intros tree Hsize Hmax.
  - simpl. unfold ret, count_true. simpl. lia.
  - rewrite Inserts_cons. simpl length in Hmax.
    assert (Hlt : Z.of_nat (nodes (root tree)) < GoInt.max_int) by lia.
    pose proof (Insert_size v tree Hsize Hlt) as Hv.
    destruct (Insert v tree) as [ok tree1]. destruct Hv as [Hv1 Hv2].
    assert (Hmax1 : Z.of_nat (nodes (root tree1)) + Z.of_nat (length vs)
                    <= GoInt.max_int) by (destruct ok; lia).
    specialize (IH tree1 Hv2 Hmax1).
    destruct (Inserts vs tree1) as [oks tree2]. destruct IH as [IH1 IH2].
    split; trivial. unfold count_true in *. destruct ok; simpl; lia.
Qed.

(** An insert that returns false leaves the whole tree as it was. *)
Lemma Insert_false (v : A) tree :
  eval (Insert v) tree = false -> exec (Insert v) tree = tree.
Proof.
  unfold eval, exec.
  destruct (Insert_descent tree v)
    as [(pos & E & D & R)|(pos & n & E & D & N & R)]; rewrite R; simpl;
    congruence.
Qed.

(** Every inserted value is stored or compares neither smaller nor larger
    than a stored one, and only inserted values are stored. *)
Lemma Inserts_stored (vs : list A) : forall tree,
  (forall a, smaller tree a a = false /\ larger tree a a = false) ->
  let tree' := exec (Inserts vs) tree in
  (forall y, In y (values (root tree)) -> In y (values (root tree'))) /\
  (forall y, In y (values (root tree')) ->
             In y (values (root tree)) \/ In y vs) /\
  (forall x, In x vs ->
     exists y, In y (values (root tree')) /\
               smaller tree x y = false /\ larger tree x y = false).
Proof.
  induction vs as [|v vs IH]; intros tree Hirr; unfold exec.
  - simpl. repeat split; auto. intros x [].
  - rewrite Inserts_cons.
    pose proof (Insert_values v tree) as Hv.
    destruct (Insert_descent tree v)
      as [(pos & E & D & R)|(pos & n & E & D & N & R)]; rewrite R in *.
    + set (tree1 := Build_Tree _ _ _ _) in *.
      specialize (IH tree1 Hirr). unfold exec in IH.
      destruct (Inserts vs tree1) as [oks tree2]. simpl in *.
      destruct IH as (IH1 & IH2 & IH3). repeat split.
      * intros y Hy. apply IH1. rewrite Hv. now right.
      * intros y Hy. destruct (IH2 y Hy) as [H|H]; auto.
        rewrite Hv in H. destruct H as [<-|H]; auto.
      * intros x [<-|Hx]; auto.
        exists v. split; [|apply Hirr]. apply IH1. rewrite Hv. now left.
    + specialize (IH tree Hirr). unfold exec in IH.
      destruct (Inserts vs tree) as [oks tree2]. simpl in *.
      destruct IH as (IH1 & IH2 & IH3). repeat split; auto.
      * intros y Hy. destruct (IH2 y Hy); auto.
      * intros x [<-|Hx]; auto.
        exists (value n). split; [|exact N]. apply IH1. rewrite E.
        destruct (values_plug pos) as (b & a & H). rewrite H.
        apply in_or_app. right. apply in_or_app. left.
        destruct n as [x l r]. simpl. apply in_or_app. right. now left.
Qed.

End Sequences.

(** ** Leftmost and rightmost nodes *)

Section Extremes.

Variable A : Type.

Lemma Minimum_loop_first (node : ptr A) :
  match node with
  | nil => True
  | addr n => exists rest, values node = value (Minimum_loop n) :: rest
  end.
Proof.
  induction node as [|x l r IHl IHr] using ptr_induction; trivial.
  simpl. destruct l as [|ln].
  - exists (values r). reflexivity.
  - destruct IHl as [rest E]. rewrite E. simpl. eauto.
Qed.

Lemma Maximum_loop_last (node : ptr A) :
  match node with
  | nil => True
  | addr n => exists rest, values node = rest ++ [value (Maximum_loop n)]
  end.
Proof.
  induction node as [|x l r IHl IHr] using ptr_induction; trivial.
  simpl. destruct r as [|rn].
  - exists (values l). reflexivity.
  - destruct IHr as [rest E]. rewrite E.
    exists (values l ++ x :: rest). now rewrite <- app_assoc.
Qed.

Lemma Minimum_first (tree : Tree A) :
  eval (@Minimum A) tree = hd_error (values (root tree)).
Proof.
  unfold eval, Minimum. pose proof (Minimum_loop_first (root tree)) as H.
  destruct (root tree) as [|n]; [reflexivity|].
  destruct H as [rest E]. cbn [fst]. rewrite E. reflexivity.
Qed.

Lemma Maximum_last (tree : Tree A) :
  eval (@Maximum A) tree = hd_error (rev (values (root tree))).
Proof.
  unfold eval, Maximum. pose proof (Maximum_loop_last (root tree)) as H.
  destruct (root tree) as [|n]; [reflexivity|].
  destruct H as [rest E]. cbn [fst]. rewrite E, rev_app_distr. reflexivity.
Qed.

End Extremes.

(** ** The integer ordering of the package *)

Lemma Int_strict : StrictOrdering IntSmaller IntLarger.
Proof.
  unfold IntSmaller, IntLarger. constructor; intros.
  - apply Z.ltb_irrefl.
  - rewrite Z.ltb_lt in *. lia.
  - now rewrite Z.gtb_ltb.
Qed.

Lemma Int_comparable (vs : list Z) x y :
  In x vs -> In y vs ->
  x = y \/ IntSmaller x y = true \/ IntSmaller y x = true.
Proof. intros _ _. unfold IntSmaller. rewrite !Z.ltb_lt. lia. Qed.

(** * The claims *)

(** C1. For every tree built from the empty tree by a sequence of [Insert]
    calls, under a consistent strict ordering, [Traverse] with [InOrder]
    applies any visitor to the stored values (the values whose insert
    returned true, each once), and it does so in ascending order: every
    visited value is smaller than all the values visited after it, hence no
    visited value is smaller than one visited before it. *)
Theorem C1_inorder_ascending (A : Type) (smaller larger : A -> A -> bool)
    (vs : list A) :
  StrictOrdering smaller larger ->
  let oks := eval (Inserts vs) (New smaller larger) in
  let tree := build smaller larger vs in
  (forall S (visitor : Visitor A S) s,
     eval (Traverse InOrder visitor s) tree
     = fold_left (fun s v => visitor v s) (visited tree InOrder) s) /\
  Permutation (visited tree InOrder) (accepted vs oks) /\
  ascending smaller (visited tree InOrder) /\
  non_decreasing smaller (visited tree InOrder).
Proof.
  intros strict oks tree.
  rewrite visited_InOrder.
  split; [intros; unfold eval, Traverse; simpl; apply doInOrder_fold|].
  split.
  - pose proof (Inserts_values vs (New smaller larger)) as H.
    subst oks tree. unfold build, eval, exec.
    destruct (Inserts vs (New smaller larger)) as [oks tree]. exact H.
  - assert (Hasc : ascending smaller (values (root tree))).
    { apply ordered_ascending with (larger := larger); trivial.
      apply (Inserts_ordered vs (New smaller larger)); simpl; trivial. }
    split; trivial. eapply ascending_non_decreasing; eauto.
Qed.

Lemma C1_inorder_ascending_witness :
  StrictOrdering IntSmaller IntLarger /\
  ascending IntSmaller (visited (build IntSmaller IntLarger [20; 10; 30; 10]) InOrder).
Proof.
  split; [exact Int_strict|].
  exact (proj1 (proj2 (proj2
           (C1_inorder_ascending [20; 10; 30; 10] Int_strict)))).
Defined.

(** C2. For every sequence of [Insert] calls from the empty tree (of a
    length an [int] can count), [Size()] equals the number of calls that
    returned true, which is the number of nodes reachable from the root;
    and on any tree an [Insert] that returns false leaves the size
    unchanged. *)
Theorem C2_size_counts_inserts (A : Type) (smaller larger : A -> A -> bool)
    (vs : list A) :
  Z.of_nat (length vs) <= GoInt.max_int ->
  let oks := eval (Inserts vs) (New smaller larger) in
  let tree := build smaller larger vs in
  eval (@Size A) tree = Z.of_nat (count_true oks) /\
  eval (@Size A) tree = Z.of_nat (nodes (root tree)) /\
  forall (t : Tree A) (v : A),
    eval (Insert v) t = false ->
    eval (@Size A) (exec (Insert v) t) = eval (@Size A) t.
Proof.
  intros Hlen oks tree. split; [|split].
  - pose proof (@Inserts_size A vs (New smaller larger) eq_refl) as H.
    subst oks tree. unfold build, eval, exec in *.
    destruct (Inserts vs (New smaller larger)) as [oks tree].
    simpl in *. lia.
  - pose proof (@Inserts_size A vs (New smaller larger) eq_refl) as H.
    subst oks tree. unfold build, eval, exec in *.
    destruct (Inserts vs (New smaller larger)) as [oks tree].
    simpl in *. lia.
  - intros t v H. now rewrite Insert_false.
Qed.

Lemma C2_size_counts_inserts_witness :
  Z.of_nat (length [20; 10; 30; 30]) <= GoInt.max_int /\
  eval (@Size Z) (build IntSmaller IntLarger [20; 10; 30; 30])
  = Z.of_nat (count_true (eval (Inserts [20; 10; 30; 30]) EmptyTree)) /\
  eval (Insert 30) (build IntSmaller IntLarger [20; 10; 30]) = false /\
  eval (@Size Z) (exec (Insert 30) (build IntSmaller IntLarger [20; 10; 30]))
  = eval (@Size Z) (build IntSmaller IntLarger [20; 10; 30]).
Proof.
  assert (H : Z.of_nat (length [20; 10; 30; 30]) <= GoInt.max_int)
    by (vm_compute; discriminate).
  pose proof (C2_size_counts_inserts IntSmaller IntLarger [20; 10; 30; 30] H)
    as (Hcount & _ & Hfalse).
  split; [exact H|]. split; [exact Hcount|]. split; [reflexivity|].
  apply Hfalse. reflexivity.
Defined.

(** C3. [Insert(value)] on a tree without root makes the value the root,
    increments the size and returns true.  On any tree, either the descent
    for the value (left where [smaller] holds, right where it does not and
    [larger] holds) ends on a missing slot, and then a new node is stored in
    that slot, the size is incremented, nothing else changes and the result
    is true; or the descent meets a node for which neither predicate holds,
    and then the tree, structure and size, is unchanged and the result is
    false. *)
Theorem C3_insert (A : Type) (tree : Tree A) (v : A) :
  (forall sm lg n,
     Insert v (Build_Tree nil sm lg n)
     = (true, Build_Tree (new_Node v) sm lg (GoInt.add n 1))) /\
  ((exists pos,
      root tree = plug pos nil /\ descent tree v pos /\
      Insert v tree
      = (true, Build_Tree (plug pos (new_Node v)) (smaller tree) (larger tree)
                          (GoInt.add (size tree) 1)))
   \/
   (exists pos n,
      root tree = plug pos (addr n) /\ descent tree v pos /\
      neither tree v n /\ Insert v tree = (false, tree))).
Proof.
  split; [reflexivity|]. apply Insert_descent.
Qed.

(** C4. [Exists(value)] leaves the tree as it is, and returns true exactly
    when the descent for the value reaches a node whose value compares
    neither smaller nor larger; on a tree without root it returns false.
    After inserting 20, 10, 30 into an empty integer tree, [Exists(20)] is
    true, [Exists(50)] false, [Exists(30)] true and inserting 30 again
    returns false; the answers are the same after that fourth insert. *)
Theorem C4_exists (A : Type) (tree : Tree A) (v : A) :
  exec (Exists v) tree = tree /\
  (eval (Exists v) tree = true <->
   exists pos n,
     root tree = plug pos (addr n) /\ descent tree v pos /\ neither tree v n) /\
  (forall sm lg n, eval (Exists v) (Build_Tree nil sm lg n) = false) /\
  (let tree := build IntSmaller IntLarger [20; 10; 30] in
   eval (Exists 20) tree = true /\ eval (Exists 50) tree = false /\
   eval (Exists 30) tree = true /\ eval (Insert 30) tree = false) /\
  (let tree := build IntSmaller IntLarger [20; 10; 30; 30] in
   eval (Inserts [20; 10; 30; 30]) EmptyTree = [true; true; true; false] /\
   eval (Exists 20) tree = true /\ eval (Exists 50) tree = false /\
   eval (Exists 30) tree = true).
Proof.
  split; [reflexivity|]. split; [apply doExists_descent|].
  split; [reflexivity|]. split; vm_compute; auto.
Qed.

Lemma ascending_last (A : Type) (smaller : A -> A -> bool) front hi :
  ascending smaller (front ++ [hi]) ->
  Forall (fun y => smaller y hi = true) front.
Proof.
  unfold ascending. induction front as [|a front IH]; simpl; intros H.
  - constructor.
  - inversion_clear H as [|? ? Hs Hf]. constructor; auto.
    rewrite Forall_forall in Hf. apply Hf. apply in_or_app. right. now left.
Qed.

Lemma build_stored (A : Type) (smaller larger : A -> A -> bool) (vs : list A) :
  StrictOrdering smaller larger ->
  let tree := build smaller larger vs in
  ascending smaller (values (root tree)) /\
  (forall y, In y (values (root tree)) -> In y vs) /\
  (forall x, In x vs ->
     exists y, In y (values (root tree)) /\
               smaller x y = false /\ smaller y x = false).
Proof.
  intros strict tree. split; [|split].
  - apply ordered_ascending with (larger := larger); trivial.
    apply (Inserts_ordered vs (New smaller larger)); simpl; trivial.
  - intros y Hy.
    destruct (@Inserts_stored A vs (New smaller larger)) as (_ & H & _).
    { intros a. simpl. rewrite (larger_converse strict).
      split; apply (smaller_irrefl strict). }
    destruct (H y Hy) as [[]|]; trivial.
  - intros x Hx.
    destruct (@Inserts_stored A vs (New smaller larger)) as (_ & _ & H).
    { intros a. simpl. rewrite (larger_converse strict).
      split; apply (smaller_irrefl strict). }
    destruct (H x Hx) as (y & Hy & Hs & Hl). simpl in *.
    rewrite (larger_converse strict) in Hl. eauto.
Qed.

(** C5. [Minimum()] and [Maximum()] return the explicit empty result on a
    tree without root.  On the tree built by inserting a non-empty list of
    values under a consistent strict ordering, [Minimum()] returns an
    inserted value that no inserted value is smaller than and [Maximum()]
    one that is smaller than no inserted value; when the ordering tells the
    inserted values apart (any two are equal, or one is smaller than the
    other) these are the least and the greatest of the inserted values. *)
Theorem C5_minimum_maximum (A : Type) (smaller larger : A -> A -> bool)
    (vs : list A) :
  (forall sm lg n,
     eval (@Minimum A) (Build_Tree nil sm lg n) = None /\
     eval (@Maximum A) (Build_Tree nil sm lg n) = None) /\
  (StrictOrdering smaller larger -> vs <> [] ->
   let tree := build smaller larger vs in
   exists lo hi,
     eval (@Minimum A) tree = Some lo /\ eval (@Maximum A) tree = Some hi /\
     In lo vs /\ In hi vs /\
     (forall x, In x vs -> smaller x lo = false /\ smaller hi x = false) /\
     ((forall x y, In x vs -> In y vs ->
                   x = y \/ smaller x y = true \/ smaller y x = true) ->
      forall x, In x vs ->
                (x = lo \/ smaller lo x = true) /\
                (x = hi \/ smaller x hi = true))).
Proof.
  split; [intros; split; reflexivity|].
  intros strict Hvs tree.
  destruct (build_stored vs strict) as (Hasc & Hsub & Hrep).
  fold tree in Hasc, Hsub, Hrep.
  pose proof (Minimum_first tree) as Hmin.
  pose proof (Maximum_last tree) as Hmax.
  pose proof (Minimum_loop_first (root tree)) as Hfirst.
  pose proof (Maximum_loop_last (root tree)) as Hlast.
  destruct (root tree) as [|n] eqn:Hroot.
  { destruct vs as [|x vs']; [congruence|].
    destruct (Hrep x (or_introl eq_refl)) as (y & [] & _). }
  destruct Hfirst as [back Eb]. destruct Hlast as [front Ef].
  set (lo := value (Minimum_loop n)) in *.
  set (hi := value (Maximum_loop n)) in *.
  assert (Hlo : In lo vs) by (apply Hsub; rewrite Eb; now left).
  assert (Hhi : In hi vs)
    by (apply Hsub; rewrite Ef; apply in_or_app; right; now left).
  assert (Hminimal : forall x, In x vs -> smaller x lo = false).
  { intros x Hx. destruct (smaller x lo) eqn:H; trivial.
    exfalso. destruct (Hrep x Hx) as (y & Hy & Hxy & _).
    rewrite Eb in Hy, Hasc. destruct Hy as [<-|Hy]; [congruence|].
    inversion_clear Hasc as [|? ? _ Hf]. rewrite Forall_forall in Hf.
    rewrite (smaller_trans strict _ _ _ H (Hf y Hy)) in Hxy. discriminate. }
  assert (Hmaximal : forall x, In x vs -> smaller hi x = false).
  { intros x Hx. destruct (smaller hi x) eqn:H; trivial.
    exfalso. destruct (Hrep x Hx) as (y & Hy & _ & Hyx).
    rewrite Ef in Hy, Hasc. apply in_app_or in Hy.
    destruct Hy as [Hy|[<-|[]]]; [|congruence].
    apply ascending_last in Hasc. rewrite Forall_forall in Hasc.
    rewrite (smaller_trans strict _ _ _ (Hasc y Hy) H) in Hyx. discriminate. }
  exists lo, hi. rewrite Hmin, Eb, Hmax, Ef, rev_app_distr.
  split; [reflexivity|]. split; [reflexivity|].
  split; [exact Hlo|]. split; [exact Hhi|].
  split; [intros x Hx; split; auto|].
  intros Hcmp x Hx. split.
  - destruct (Hcmp x lo Hx Hlo) as [E|[E|E]]; auto.
    rewrite Hminimal in E by trivial. discriminate.
  - destruct (Hcmp x hi Hx Hhi) as [E|[E|E]]; auto.
    rewrite Hmaximal in E by trivial. discriminate.
Qed.

Lemma C5_minimum_maximum_witness :
  exists lo hi,
    eval (@Minimum Z) (build IntSmaller IntLarger [20; 10; 30; 10]) = Some lo /\
    eval (@Maximum Z) (build IntSmaller IntLarger [20; 10; 30; 10]) = Some hi /\
    In lo [20; 10; 30; 10] /\ In hi [20; 10; 30; 10] /\
    forall x, In x [20; 10; 30; 10] ->
              (x = lo \/ IntSmaller lo x = true) /\
              (x = hi \/ IntSmaller x hi = true).
Proof.
  assert (Hvs : [20; 10; 30; 10] <> []) by discriminate.
  destruct (proj2 (C5_minimum_maximum IntSmaller IntLarger [20; 10; 30; 10])
                  Int_strict Hvs)
    as (lo & hi & Hmin & Hmax & Hlo & Hhi & _ & Hleast).
  exists lo, hi. repeat split; trivial;
    apply (Hleast (@Int_comparable [20; 10; 30; 10])); trivial.
Defined.

(** C8. On every tree and for every visitor, [Traverse] with a traversal
    value other than the four recognised orders does nothing: the visitor
    is applied to no value and the tree is unchanged. *)
Theorem C8_unknown_traversal (A S : Type) (tree : Tree A)
    (traversal : Traversal) (visitor : Visitor A S) (s : S) :
  traversal <> PreOrder -> traversal <> InOrder ->
  traversal <> PostOrder -> traversal <> LevelOrder ->
  Traverse traversal visitor s tree = (s, tree) /\
  visited tree traversal = [].
Proof.
  intros H1 H2 H3 H4. unfold visited, eval, Traverse.
  apply Z.eqb_neq in H1, H2, H3, H4. rewrite H1, H2, H3, H4. auto.
Qed.

Lemma C8_unknown_traversal_witness :
  Traverse 0 (@record Z) [] (build IntSmaller IntLarger [20; 10; 30])
  = ([], build IntSmaller IntLarger [20; 10; 30]) /\
  Traverse 5 (@record Z) [7] (build IntSmaller IntLarger [20; 10; 30])
  = ([7], build IntSmaller IntLarger [20; 10; 30]).
Proof.
  split.
  - apply (C8_unknown_traversal (build IntSmaller IntLarger [20; 10; 30])
             (traversal := 0) (@record Z) []); discriminate.
  - apply (C8_unknown_traversal (build IntSmaller IntLarger [20; 10; 30])
             (traversal := 5) (@record Z) [7]); discriminate.
Defined.

(** C10. On every tree, [Minimum()] is the first and [Maximum()] the last
    value that [Traverse] with [InOrder] visits (there is neither on a tree
    without root); in particular on a tree built by at least one [Insert]
    both exist and are the two ends of the in-order visit. *)
Theorem C10_extremes_of_inorder (A : Type) (tree : Tree A) :
  eval (@Minimum A) tree = hd_error (visited tree InOrder) /\
  eval (@Maximum A) tree = hd_error (rev (visited tree InOrder)) /\
  forall smaller larger v vs,
    let built := build smaller larger (v :: vs) in
    exists lo hi front back,
      eval (@Minimum A) built = Some lo /\
      eval (@Maximum A) built = Some hi /\
      visited built InOrder = lo :: back /\
      visited built InOrder = front ++ [hi].
Proof.
  rewrite visited_InOrder. split; [apply Minimum_first|].
  split; [apply Maximum_last|].
  intros smaller larger v vs built. rewrite visited_InOrder.
  pose proof (Minimum_first built) as Hmin.
  pose proof (Maximum_last built) as Hmax.
  pose proof (Minimum_loop_first (root built)) as Hfirst.
  pose proof (Maximum_loop_last (root built)) as Hlast.
  destruct (root built) as [|n] eqn:Hroot.
  - exfalso. pose proof (Inserts_values (v :: vs) (New smaller larger)) as H.
    subst built. unfold build, exec in Hroot. rewrite Inserts_cons in *.
    change (Insert v (New smaller larger))
      with (true, Build_Tree (new_Node v) smaller larger (GoInt.add 0 1)) in *.
    cbv beta iota in Hroot, H.
    destruct (Inserts vs _) as [oks tree']. simpl in Hroot. rewrite Hroot in H.
    apply Permutation_nil in H. discriminate.
  - destruct Hfirst as [back Eb]. destruct Hlast as [front Ef].
    exists (value (Minimum_loop n)), (value (Maximum_loop n)), front, back.
    rewrite Hmin, Hmax. repeat split; trivial.
    + now rewrite Eb.
    + now rewrite Ef, rev_app_distr.
Qed.

(** ** Inserting at a known position *)

Section InsertAt.

Variable A : Type.

Lemma plug_compose (outer inner : position A) node :
  plug (compose outer inner) node = plug outer (plug inner node).
Proof.
  induction outer as [|x below IH r|x l below IH]; simpl; congruence.
Qed.

Lemma descent_compose (tree : Tree A) v outer inner :
  descent tree v outer -> descent tree v inner ->
  descent tree v (compose outer inner).
Proof.
  induction outer as [|x below IH r|x l below IH]; simpl; tauto.
Qed.

Lemma descent_ext (tree tree' : Tree A) v pos :
  smaller tree' = smaller tree -> larger tree' = larger tree ->
  descent tree v pos -> descent tree' v pos.
Proof.
  intros Hs Hl. induction pos as [|x below IH r|x l below IH]; simpl;
    rewrite ?Hs, ?Hl; tauto.
Qed.

Lemma doInsert_at (tree : Tree A) v pos :
  pos <> Here A -> descent tree v pos ->
  doInsert tree (plug pos nil) v = (plug pos (new_Node v), true).
Proof.
  induction pos as [|x below IH r|x l below IH]; [congruence| |]; intros _.
  - intros [Hx D]. cbn [plug doInsert value left right]. rewrite Hx.
    destruct below as [|y below' r'|y l' below'].
    + reflexivity.
    + rewrite IH by (trivial; discriminate). reflexivity.
    + rewrite IH by (trivial; discriminate). reflexivity.
  - intros (Hx & Hy & D). cbn [plug doInsert value left right].
    rewrite Hx, Hy.
    destruct below as [|y below' r'|y l' below'].
    + reflexivity.
    + rewrite IH by (trivial; discriminate). reflexivity.
    + rewrite IH by (trivial; discriminate). reflexivity.
Qed.

Lemma Insert_at (tree : Tree A) v pos :
  root tree = plug pos nil -> descent tree v pos ->
  Insert v tree
  = (true, Build_Tree (plug pos (new_Node v)) (smaller tree) (larger tree)
                      (GoInt.add (size tree) 1)).
Proof.
  intros Hroot D. unfold Insert. rewrite Hroot.
  destruct pos as [|x below r|x l below].
  - reflexivity.
  - rewrite doInsert_at by (trivial; discriminate). reflexivity.
  - rewrite doInsert_at by (trivial; discriminate). reflexivity.
Qed.

End InsertAt.

(** ** Depth *)

Lemma log2_up_halve n :
  1 <= n -> Z.log2_up (n + 1) = 1 + Z.log2_up (n / 2 + 1).
Proof.
  intros Hn.
  assert (Hdiv : 2 * (n / 2) <= n < 2 * (n / 2) + 2).
  { pose proof (Z.div_mod n 2). pose proof (Z.mod_pos_bound n 2). lia. }
  destruct (Z.eq_dec (n / 2) 0) as [E|E].
  - rewrite E. assert (n = 1) by lia. subst n. reflexivity.
  - assert (Hm : 1 < n / 2 + 1) by lia.
    pose proof (Z.log2_up_spec _ Hm) as [Hlo Hhi].
    pose proof (Z.log2_up_pos _ Hm) as Hk.
    set (k := Z.log2_up (n / 2 + 1)) in *.
    apply Z.log2_up_unique; [lia|].
    replace (Z.pred (1 + k)) with (Z.succ (Z.pred k)) by lia.
    replace (1 + k) with (Z.succ k) by lia.
    rewrite !Z.pow_succ_r by lia.
    set (p := 2 ^ Z.pred k) in *. set (q := 2 ^ k) in *. lia.
Qed.

Lemma gtb_false a b : a <= b -> (a >? b) = false.
Proof. intros H. rewrite Z.gtb_ltb. now apply Z.ltb_ge. Qed.

Section DepthLemmas.

Variable A : Type.
Variable tree : Tree A.

Lemma doDepth_height (node : ptr A) :
  Z.of_nat (height node) <= GoInt.max_int ->
  doDepth tree node = Z.of_nat (height node).
Proof.
  induction node as [|x l r IHl IHr] using ptr_induction; trivial.
  cbn [doDepth height left right]. intros H.
  rewrite IHl, IHr by lia. unfold GoInt.add.
  destruct (Z.gtb_spec (Z.of_nat (height l)) (Z.of_nat (height r)));
    rewrite wrap_in_range;
    try (unfold GoInt.in_range; rewrite min_int_value); lia.
Qed.

End DepthLemmas.

(** ** The midpoint recursion *)

Lemma doCompleteTree_fuel fuel : forall tree begin end_ tree',
  doCompleteTree fuel tree begin end_ = Some tree' ->
  forall fuel', (fuel <= fuel')%nat ->
  doCompleteTree fuel' tree begin end_ = Some tree'.
Proof.
  induction fuel as [|fuel IH]; intros tree b e tree' H fuel' Hle;
    [discriminate|].
  destruct fuel' as [|fuel']; [lia|]. simpl in *.
  destruct (b >? e); trivial.
  destruct (doCompleteTree fuel _ b _) as [tree1|] eqn:E1; [|discriminate].
  rewrite (IH _ _ _ _ E1 fuel') by lia.
  apply IH with (fuel' := fuel') in H; trivial. lia.
Qed.

Lemma doCompleteTree_fills (n : nat) : forall b e,
  Z.of_nat n = e - b + 1 -> 0 <= b -> 2 * e <= GoInt.max_int ->
  exists sub : ptr Z,
    (forall t : Tree Z, doDepth t sub = Z.log2_up (Z.of_nat n + 1)) /\
    forall fuel tree pos,
      (n < fuel)%nat ->
      smaller tree = IntSmaller -> larger tree = IntLarger ->
      root tree = plug pos nil ->
      (forall x, b <= x <= e -> descent tree x pos) ->
      0 <= size tree -> size tree + Z.of_nat n <= GoInt.max_int ->
      doCompleteTree fuel tree b e
      = Some (Build_Tree (plug pos sub) IntSmaller IntLarger
                         (size tree + Z.of_nat n)).
Proof.
  induction n as [n IH] using lt_wf_ind. intros b e Hn Hb He.
  rewrite max_int_value in He.
  destruct (Z.eq_dec (Z.of_nat n) 0) as [Hz|Hz].
  { exists nil. split; [intros; rewrite Hz; reflexivity|].
    intros [|fuel] tree pos Hfuel Hs Hl Hroot _ _ _; [lia|]. simpl.
    replace (b >? e) with true by (symmetry; apply Z.gtb_lt; lia).
    rewrite Hz, Z.add_0_r, <- Hroot, <- Hs, <- Hl. now destruct tree. }
  remember ((b + e) / 2) as mid eqn:Hdef.
  assert (Hmid : b <= mid <= e).
  { rewrite Hdef.
    split; [apply Z.div_le_lower_bound|apply Z.div_le_upper_bound]; lia. }
  assert (Htwice : 2 * mid <= b + e < 2 * mid + 2).
  { rewrite Hdef. pose proof (Z.div_mod (b + e) 2).
    pose proof (Z.mod_pos_bound (b + e) 2). lia. }
  assert (Hhalf : e - mid = Z.of_nat n / 2).
  { rewrite Hdef. replace (b + e) with (Z.of_nat n - 1 + b * 2) by lia.
    rewrite Z.div_add by lia.
    pose proof (Z.div_mod (Z.of_nat n) 2).
    pose proof (Z.mod_pos_bound (Z.of_nat n) 2).
    pose proof (Z.div_mod (Z.of_nat n - 1) 2).
    pose proof (Z.mod_pos_bound (Z.of_nat n - 1) 2). lia. }
  assert (HnL : (Z.to_nat (mid - b) < n)%nat) by lia.
  assert (HnR : (Z.to_nat (e - mid) < n)%nat) by lia.
  destruct (IH _ HnL b (mid - 1)) as (subL & DL & FL);
    [rewrite ?max_int_value; lia..|].
  destruct (IH _ HnR (mid + 1) e) as (subR & DR & FR);
    [rewrite ?max_int_value; lia..|].
  rewrite Z2Nat.id in DL, DR, FL, FR by lia.
  exists (addr (Build_Node mid subL subR)). split.
  - intros t. cbn [doDepth left right]. rewrite DL, DR.
    assert (Hle : Z.log2_up (mid - b + 1) <= Z.log2_up (e - mid + 1))
      by (apply Z.log2_up_le_mono; lia).
    assert (Hlin : Z.log2_up (e - mid + 1) <= e - mid + 1)
      by (apply Z.log2_up_le_lin; lia).
    pose proof (Z.log2_up_nonneg (e - mid + 1)).
    rewrite gtb_false by lia.
    unfold GoInt.add. rewrite wrap_in_range
      by (unfold GoInt.in_range; rewrite min_int_value, max_int_value; lia).
    rewrite (@log2_up_halve (Z.of_nat n)) by lia. rewrite <- Hhalf. lia.
  - intros [|fuel] tree pos Hfuel Hs Hl Hroot Hpos Hsize Hmax; [lia|].
    rewrite max_int_value in Hmax.
    cbn [doCompleteTree].
    rewrite gtb_false by lia.
    assert (Emid : GoInt.quo (GoInt.add b e) 2 = mid).
    { unfold GoInt.quo, GoInt.add.
      rewrite (@wrap_in_range (b + e))
        by (unfold GoInt.in_range; rewrite min_int_value, max_int_value; lia).
      rewrite Z.quot_div_nonneg by lia. rewrite <- Hdef.
      apply wrap_in_range.
      unfold GoInt.in_range; rewrite min_int_value, max_int_value; lia. }
    rewrite Emid. unfold exec.
    rewrite (Insert_at tree mid pos Hroot) by (apply Hpos; lia).
    cbn [snd]. rewrite Hs, Hl.
    assert (E1 : GoInt.add (size tree) 1 = size tree + 1).
    { apply wrap_in_range.
      unfold GoInt.in_range; rewrite min_int_value, max_int_value; lia. }
    assert (Esub : GoInt.sub mid 1 = mid - 1).
    { apply wrap_in_range.
      unfold GoInt.in_range; rewrite min_int_value, max_int_value; lia. }
    assert (Eadd : GoInt.add mid 1 = mid + 1).
    { apply wrap_in_range.
      unfold GoInt.in_range; rewrite min_int_value, max_int_value; lia. }
    rewrite E1, Esub, Eadd.
    set (tree1 := Build_Tree (plug pos (new_Node mid)) IntSmaller IntLarger
                             (size tree + 1)).
    assert (HL : doCompleteTree fuel tree1 b (mid - 1)
                 = Some (Build_Tree
                           (plug (compose pos (InLeft mid (Here Z) nil)) subL)
                           IntSmaller IntLarger (size tree1 + (mid - b)))).
    { apply FL; trivial.
      - lia.
      - subst tree1. cbn [root]. now rewrite plug_compose.
      - intros x Hx. apply descent_compose.
        + apply descent_ext with (tree := tree);
            [simpl; congruence..|apply Hpos; lia].
        + simpl. unfold IntSmaller. rewrite Z.ltb_lt. lia.
      - subst tree1. cbn [size]. lia.
      - subst tree1. cbn [size]. rewrite max_int_value. lia. }
    rewrite HL.
    set (tree2 := Build_Tree _ _ _ _).
    assert (HR : doCompleteTree fuel tree2 (mid + 1) e
                 = Some (Build_Tree
                           (plug (compose pos (InRight mid subL (Here Z))) subR)
                           IntSmaller IntLarger (size tree2 + (e - mid)))).
    { apply FR; trivial.
      - lia.
      - subst tree2. cbn [root]. now rewrite !plug_compose.
      - intros x Hx. apply descent_compose.
        + apply descent_ext with (tree := tree);
            [simpl; congruence..|apply Hpos; lia].
        + simpl. unfold IntSmaller, IntLarger.
          rewrite Z.gtb_ltb, !Z.ltb_lt, Z.ltb_ge. lia.
      - subst tree2 tree1. cbn [size]. lia.
      - subst tree2 tree1. cbn [size]. rewrite max_int_value. lia. }
    rewrite HR. subst tree2 tree1. rewrite plug_compose. cbn [plug size].
    do 2 f_equal. lia.
Qed.

(** C6. For every count [0 <= S] (small enough for the sums of two range
    ends to fit an [int]), the midpoint recursion over 1..S returns, and the
    tree it builds has [S] nodes and depth [ceil(log2(S+1))]; the empty tree
    has depth 0, and the depth of a node is one more than the larger of the
    depths of its children. *)
Theorem C6_complete_tree_depth (count : Z) :
  0 <= count -> 2 * count <= GoInt.max_int ->
  (exists tree,
     (forall fuel, (Z.to_nat count < fuel)%nat ->
                   CompleteTree fuel count = Some tree) /\
     eval (@Depth Z) tree = Z.log2_up (count + 1) /\
     eval (@Size Z) tree = count) /\
  eval (@Depth Z) EmptyTree = 0 /\
  (forall (t : Tree Z) (node : _Node Z),
     Z.of_nat (height (addr node)) <= GoInt.max_int ->
     doDepth t (addr node)
     = 1 + Z.max (doDepth t (left node)) (doDepth t (right node))).
Proof.
  intros H0 Hmax. split; [|split; [reflexivity|]].
  - destruct (@doCompleteTree_fills (Z.to_nat count) 1 count)
      as (sub & Hdepth & Hfill); [lia..|].
    rewrite Z2Nat.id in Hdepth, Hfill by lia.
    exists (Build_Tree sub IntSmaller IntLarger count). split; [|split].
    + intros fuel Hfuel. unfold CompleteTree.
      rewrite (Hfill fuel EmptyTree (Here Z)); simpl; trivial;
        rewrite ?max_int_value in *; lia.
    + unfold eval, Depth. simpl. apply Hdepth.
    + reflexivity.
  - intros t [x l r] H. rewrite !doDepth_height; cbn [height left right] in *;
      lia.
Qed.

Lemma C6_complete_tree_depth_witness :
  (exists tree,
     (forall fuel, (Z.to_nat 15 < fuel)%nat -> CompleteTree fuel 15 = Some tree) /\
     eval (@Depth Z) tree = Z.log2_up (15 + 1) /\
     eval (@Size Z) tree = 15) /\
  doDepth EmptyTree (addr (Build_Node 2 (new_Node 1) nil))
  = 1 + Z.max (doDepth EmptyTree (new_Node 1)) (doDepth EmptyTree nil).
Proof.
  assert (H0 : 0 <= 15) by lia.
  assert (Hmax : 2 * 15 <= GoInt.max_int) by (vm_compute; discriminate).
  pose proof (C6_complete_tree_depth H0 Hmax) as (Hbuilt & _ & Hrec).
  split; [exact Hbuilt|].
  apply (Hrec EmptyTree (Build_Node 2 (new_Node 1) nil)).
  vm_compute. discriminate.
Defined.

(** C7. For the tree built from the integers 1..15 by the midpoint
    recursion, [Traverse] visits 8,4,2,1,3,6,5,7,12,10,9,11,14,13,15 in
    pre-order, 1..15 ascending in in-order, 1,3,2,5,7,6,4,9,11,10,13,15,14,12,8
    in post-order and 8,4,12,2,6,10,14,1,3,5,7,9,11,13,15 in level-order. *)
Theorem C7_traversals_of_15 :
  exists tree,
    (forall fuel, (15 < fuel)%nat -> CompleteTree fuel 15 = Some tree) /\
    visited tree PreOrder = [8; 4; 2; 1; 3; 6; 5; 7; 12; 10; 9; 11; 14; 13; 15] /\
    visited tree InOrder = [1; 2; 3; 4; 5; 6; 7; 8; 9; 10; 11; 12; 13; 14; 15] /\
    visited tree PostOrder = [1; 3; 2; 5; 7; 6; 4; 9; 11; 10; 13; 15; 14; 12; 8] /\
    visited tree LevelOrder = [8; 4; 12; 2; 6; 10; 14; 1; 3; 5; 7; 9; 11; 13; 15].
Proof.
  eexists. split.
  - intros fuel Hfuel. unfold CompleteTree.
    apply doCompleteTree_fuel with (fuel := 16%nat); [|lia].
    vm_compute. reflexivity.
  - vm_compute. auto.
Qed.


(** * Further properties of the package *)

(** ** Lookups across an insert *)

Section Lookup.

Variable A : Type.

Lemma doExists_ext (tree tree' : Tree A) node w :
  smaller tree' = smaller tree -> larger tree' = larger tree ->
  doExists tree' node w = doExists tree node w.
Proof.
  intros Hs Hl. induction node as [|x l r IHl IHr] using ptr_induction;
    cbn [doExists value left right]; trivial.
  now rewrite Hs, Hl, IHl, IHr.
Qed.

Lemma doExists_plug_keeps (tree : Tree A) pos node w :
  doExists tree (plug pos nil) w = true ->
  doExists tree (plug pos node) w = true.
Proof.
  induction pos as [|x below IH r|x l below IH];
    cbn [plug doExists value left right].
  - discriminate.
  - destruct (smaller tree w x); auto.
  - destruct (smaller tree w x); auto. destruct (larger tree w x); auto.
Qed.

Lemma doExists_plug_frame (tree : Tree A) pos v w :
  smaller tree w v = true \/ larger tree w v = true ->
  doExists tree (plug pos (new_Node v)) w = doExists tree (plug pos nil) w.
Proof.
  intros H. induction pos as [|x below IH r|x l below IH];
    cbn [plug doExists value left right new_Node].
  - destruct (smaller tree w v); trivial.
    destruct (larger tree w v); trivial. destruct H; discriminate.
  - now rewrite IH.
  - now rewrite IH.
Qed.

Lemma doExists_plug_self (tree : Tree A) pos v :
  smaller tree v v = false -> larger tree v v = false ->
  descent tree v pos ->
  doExists tree (plug pos (new_Node v)) v = true.
Proof.
  intros Hs Hl D. apply doExists_descent.
  exists pos, (Build_Node v nil nil). unfold neither. simpl. auto.
Qed.

Lemma Insert_predicates (tree : Tree A) v :
  smaller (exec (Insert v) tree) = smaller tree /\
  larger (exec (Insert v) tree) = larger tree.
Proof.
  unfold exec.
  destruct (Insert_descent tree v)
    as [(pos & E & D & R)|(pos & n & E & D & N & R)]; rewrite R; auto.
Qed.

Lemma Exists_after_Insert (tree : Tree A) v w :
  eval (Exists w) (exec (Insert v) tree)
  = doExists tree (root (exec (Insert v) tree)) w.
Proof.
  unfold eval, Exists. cbn [fst].
  destruct (Insert_predicates tree v). now apply doExists_ext.
Qed.

Lemma Exists_Insert_same (tree : Tree A) v :
  smaller tree v v = false -> larger tree v v = false ->
  eval (Exists v) (exec (Insert v) tree) = true.
Proof.
  intros Hs Hl. rewrite Exists_after_Insert. unfold exec.
  destruct (Insert_descent tree v)
    as [(pos & E & D & R)|(pos & n & E & D & N & R)]; rewrite R; cbn [snd root].
  - now apply doExists_plug_self.
  - apply doExists_descent. eauto.
Qed.

Lemma Exists_Insert_other (tree : Tree A) v w :
  eval (Exists w) tree = true ->
  eval (Exists w) (exec (Insert v) tree) = true.
Proof.
  rewrite Exists_after_Insert. unfold eval at 1, Exists, exec. cbn [fst].
  destruct (Insert_descent tree v)
    as [(pos & E & D & R)|(pos & n & E & D & N & R)]; rewrite R; cbn [snd root];
    trivial.
  rewrite E. apply doExists_plug_keeps.
Qed.

Lemma Exists_Insert_frame (tree : Tree A) v w :
  smaller tree w v = true \/ larger tree w v = true ->
  eval (Exists w) (exec (Insert v) tree) = eval (Exists w) tree.
Proof.
  intros H. rewrite Exists_after_Insert.
  unfold eval, Exists, exec. cbn [fst].
  destruct (Insert_descent tree v)
    as [(pos & E & D & R)|(pos & n & E & D & N & R)]; rewrite R; cbn [snd root];
    trivial.
  rewrite E. now apply doExists_plug_frame.
Qed.

End Lookup.

(** X1. A value is found right after it is inserted, whatever the insert
    returned, as soon as neither predicate holds of the value against
    itself. *)
Theorem Insert_then_Exists (A : Type) (tree : Tree A) (v : A) :
  smaller tree v v = false -> larger tree v v = false ->
  eval (Exists v) (exec (Insert v) tree) = true.
Proof. apply Exists_Insert_same. Qed.

Lemma Insert_then_Exists_witness :
  eval (Exists 25) (exec (Insert 25) (build IntSmaller IntLarger [20; 10; 30]))
  = true.
Proof.
  apply (@Insert_then_Exists Z (build IntSmaller IntLarger [20; 10; 30]) 25);
    reflexivity.
Defined.

(** X2. An insert never hides a value: whatever the predicates, a value
    that [Exists] finds before an insert is still found after it. *)
Theorem Insert_keeps_Exists (A : Type) (tree : Tree A) (v w : A) :
  eval (Exists w) tree = true ->
  eval (Exists w) (exec (Insert v) tree) = true.
Proof. apply Exists_Insert_other. Qed.

Lemma Insert_keeps_Exists_witness :
  eval (Exists 10) (exec (Insert 25) (build IntSmaller IntLarger [20; 10; 30]))
  = true.
Proof.
  apply (@Insert_keeps_Exists Z (build IntSmaller IntLarger [20; 10; 30]) 25 10).
  reflexivity.
Defined.

(** X3. An insert changes the answer of [Exists] only for values that
    compare neither smaller nor larger than the inserted one: for a value
    that one of the predicates separates from it, the answer is the same
    before and after. *)
Theorem Insert_frame_Exists (A : Type) (tree : Tree A) (v w : A) :
  smaller tree w v = true \/ larger tree w v = true ->
  eval (Exists w) (exec (Insert v) tree) = eval (Exists w) tree.
Proof. apply Exists_Insert_frame. Qed.

Lemma Insert_frame_Exists_witness :
  eval (Exists 26) (exec (Insert 25) (build IntSmaller IntLarger [20; 10; 30]))
  = eval (Exists 26) (build IntSmaller IntLarger [20; 10; 30]).
Proof.
  apply (@Insert_frame_Exists Z (build IntSmaller IntLarger [20; 10; 30]) 25 26).
  right. reflexivity.
Defined.

(** X4. [Insert] returns true exactly when [Exists] does not find the
    value in the tree it is given, whatever the predicates. *)
Theorem Insert_true_iff_absent (A : Type) (tree : Tree A) (v : A) :
  eval (Insert v) tree = negb (eval (Exists v) tree).
Proof. apply Insert_negb_Exists. Qed.

(** X5. Inserting a value a second time returns false and leaves the tree,
    structure and size, as the first insert left it, as soon as neither
    predicate holds of the value against itself. *)
Theorem Insert_twice (A : Type) (tree : Tree A) (v : A) :
  smaller tree v v = false -> larger tree v v = false ->
  Insert v (exec (Insert v) tree) = (false, exec (Insert v) tree).
Proof.
  intros Hs Hl.
  pose proof (Exists_Insert_same tree v Hs Hl) as Hfound.
  unfold eval, Exists in Hfound. cbn [fst] in Hfound.
  destruct (Insert_descent (exec (Insert v) tree) v)
    as [(pos & E & D & R)|(pos & n & E & D & N & R)]; trivial.
  rewrite E, doExists_missing in Hfound; [discriminate|trivial].
Qed.

Lemma Insert_twice_witness :
  Insert 25 (exec (Insert 25) (build IntSmaller IntLarger [20; 10; 30]))
  = (false, exec (Insert 25) (build IntSmaller IntLarger [20; 10; 30])).
Proof.
  apply (@Insert_twice Z (build IntSmaller IntLarger [20; 10; 30]) 25);
    reflexivity.
Defined.

(** ** Lookups after a sequence of inserts *)

Section LookupSequences.

Variable A : Type.

Lemma exec_Inserts_cons (v : A) vs tree :
  exec (Inserts (v :: vs)) tree = exec (Inserts vs) (exec (Insert v) tree).
Proof.
  unfold exec. rewrite Inserts_cons.
  destruct (Insert v tree) as [ok tree1]. cbn [snd].
  now destruct (Inserts vs tree1).
Qed.

Lemma exec_Inserts_app (vs ws : list A) : forall tree,
  exec (Inserts (vs ++ ws)) tree = exec (Inserts ws) (exec (Inserts vs) tree).
Proof.
  induction vs as [|v vs IH]; intros tree; [reflexivity|].
  simpl app. now rewrite !exec_Inserts_cons, IH.
Qed.

Lemma eval_Inserts_cons (v : A) vs tree :
  eval (Inserts (v :: vs)) tree
  = eval (Insert v) tree :: eval (Inserts vs) (exec (Insert v) tree).
Proof.
  unfold eval, exec. rewrite Inserts_cons.
  destruct (Insert v tree) as [ok tree1]. cbn [fst snd].
  now destruct (Inserts vs tree1).
Qed.

Lemma build_snoc smaller larger (vs : list A) v :
  build smaller larger (vs ++ [v])
  = exec (Insert v) (build smaller larger vs).
Proof.
  unfold build. rewrite exec_Inserts_app. now rewrite exec_Inserts_cons.
Qed.

Lemma Inserts_predicates (vs : list A) : forall tree,
  smaller (exec (Inserts vs) tree) = smaller tree /\
  larger (exec (Inserts vs) tree) = larger tree.
Proof.
  induction vs as [|v vs IH]; intros tree; [auto|].
  rewrite exec_Inserts_cons.
  destruct (IH (exec (Insert v) tree)) as [-> ->].
  apply Insert_predicates.
Qed.

Lemma Inserts_found (vs : list A) : forall tree x,
  irreflexive (smaller tree) (larger tree) ->
  In x vs \/ eval (Exists x) tree = true ->
  eval (Exists x) (exec (Inserts vs) tree) = true.
Proof.
  induction vs as [|v vs IH]; intros tree x Hirr H.
  - destruct H as [[]|H]. exact H.
  - rewrite exec_Inserts_cons.
    destruct (Insert_predicates tree v) as [Hs Hl].
    apply IH; [now rewrite Hs, Hl|].
    destruct H as [[<-|H]|H]; auto.
    + right. apply Exists_Insert_same; apply Hirr.
    + right. now apply Exists_Insert_other.
Qed.

Lemma accepted_incl (vs : list A) oks x : In x (accepted vs oks) -> In x vs.
Proof.
  unfold accepted. rewrite in_map_iff. intros ([y ok] & <- & H).
  apply filter_In in H. destruct H as [H _]. now apply in_combine_l in H.
Qed.

Lemma build_values_incl smaller larger (vs : list A) x :
  In x (values (root (build smaller larger vs))) -> In x vs.
Proof.
  pose proof (Inserts_values vs (New smaller larger)) as H.
  unfold build, exec. destruct (Inserts vs (New smaller larger)) as [oks tree].
  cbn [snd]. intros Hx. eapply accepted_incl.
  eapply Permutation_in; [exact H|]. exact Hx.
Qed.

Lemma plug_value_in (pos : position A) (n : _Node A) :
  In (value n) (values (plug pos (addr n))).
Proof.
  destruct (values_plug pos) as (b & a & H). rewrite H.
  apply in_or_app. right. apply in_or_app. left.
  destruct n as [x l r]. simpl. apply in_or_app. right. now left.
Qed.

Lemma Exists_stored (tree : Tree A) w :
  eval (Exists w) tree = true ->
  exists x, In x (values (root tree)) /\
            smaller tree w x = false /\ larger tree w x = false.
Proof.
  unfold eval, Exists. cbn [fst]. intros H.
  apply doExists_descent in H. destruct H as (pos & n & E & D & Hs & Hl).
  exists (value n). rewrite E. split; [apply plug_value_in|auto].
Qed.

Lemma build_found smaller larger (vs : list A) x :
  irreflexive smaller larger -> In x vs ->
  eval (Exists x) (build smaller larger vs) = true.
Proof. intros Hirr Hx. apply Inserts_found; auto. Qed.

Lemma build_found_only smaller larger (vs : list A) w :
  eval (Exists w) (build smaller larger vs) = true ->
  exists x, In x vs /\ smaller w x = false /\ larger w x = false.
Proof.
  intros Hw. apply Exists_stored in Hw.
  destruct Hw as (x & Hx & Hs & Hl).
  destruct (Inserts_predicates vs (New smaller larger)) as [Es El].
  unfold build in *. rewrite Es, El in *.
  exists x. split; auto. now apply build_values_incl in Hx.
Qed.

End LookupSequences.

(** X6. After any sequence of inserts from the empty tree, with predicates
    that never hold of a value against itself, [Exists] finds every inserted
    value; and whatever [Exists] finds compares neither smaller nor larger
    than some inserted value. *)
Theorem Exists_after_Inserts (A : Type) (smaller larger : A -> A -> bool)
    (vs : list A) :
  irreflexive smaller larger ->
  (forall x, In x vs -> eval (Exists x) (build smaller larger vs) = true) /\
  (forall w, eval (Exists w) (build smaller larger vs) = true ->
             exists x, In x vs /\ smaller w x = false /\ larger w x = false).
Proof.
  intros Hirr. split.
  - intros x Hx. now apply build_found.
  - intros w Hw. now apply build_found_only.
Qed.

Lemma Int_irreflexive : irreflexive IntSmaller IntLarger.
Proof.
  intros a. unfold IntSmaller, IntLarger.
  rewrite Z.gtb_ltb, Z.ltb_irrefl. auto.
Qed.

Lemma Exists_after_Inserts_witness :
  eval (Exists 30) (build IntSmaller IntLarger [20; 10; 30; 10]) = true.
Proof.
  apply (proj1 (@Exists_after_Inserts Z IntSmaller IntLarger [20; 10; 30; 10]
                  Int_irreflexive)).
  simpl. auto.
Defined.

(** X7. For the integer ordering of the package, the tree is a set of the
    inserted integers: after any sequence of inserts from the empty tree,
    [Exists] returns true exactly for the values that were inserted. *)
Theorem Int_Exists_iff_inserted (vs : list Z) (w : Z) :
  eval (Exists w) (build IntSmaller IntLarger vs) = true <-> In w vs.
Proof.
  split; [|apply build_found, Int_irreflexive].
  intros H. destruct (build_found_only _ _ _ _ H) as (x & Hx & Hs & Hl).
  unfold IntSmaller, IntLarger in *.
  rewrite Z.gtb_ltb in Hl. rewrite Z.ltb_ge in *.
  replace w with x by lia. exact Hx.
Qed.

(** ** Integer trees as sets *)

Lemma Int_build_Exists (vs : list Z) (w : Z) :
  eval (Exists w) (build IntSmaller IntLarger vs) = true <-> In w vs.
Proof.
  split; [|apply build_found, Int_irreflexive].
  intros H. destruct (build_found_only _ _ _ _ H) as (x & Hx & Hs & Hl).
  unfold IntSmaller, IntLarger in *.
  rewrite Z.gtb_ltb in Hl. rewrite Z.ltb_ge in *.
  replace w with x by lia. exact Hx.
Qed.

Lemma Int_Insert_fresh (vs : list Z) (v : Z) :
  ~ In v vs -> eval (Insert v) (build IntSmaller IntLarger vs) = true.
Proof.
  intros H. rewrite Insert_negb_Exists. apply negb_true_iff.
  destruct (eval (Exists v) _) eqn:E; trivial.
  apply Int_build_Exists in E. contradiction.
Qed.

Lemma Int_Inserts_fresh (vs : list Z) : forall seen,
  NoDup (seen ++ vs) ->
  eval (Inserts vs) (build IntSmaller IntLarger seen)
  = repeat true (length vs).
Proof.
  induction vs as [|v vs IH]; intros seen Hnd; [reflexivity|].
  rewrite eval_Inserts_cons, <- build_snoc. simpl. f_equal.
  - apply Int_Insert_fresh. apply NoDup_remove_2 in Hnd.
    intros H. apply Hnd. apply in_or_app. now left.
  - apply IH. now rewrite <- app_assoc.
Qed.

(** X8. Inserting pairwise distinct integers from the empty tree, in any
    order, succeeds every time, and [Size()] is then the number of values
    inserted (as long as an [int] can count them). *)
Theorem Int_distinct_inserts (vs : list Z) :
  NoDup vs -> Z.of_nat (length vs) <= GoInt.max_int ->
  eval (Inserts vs) EmptyTree = repeat true (length vs) /\
  eval (@Size Z) (build IntSmaller IntLarger vs) = Z.of_nat (length vs).
Proof.
  intros Hnd Hlen.
  pose proof (Int_Inserts_fresh vs [] Hnd) as Hoks.
  change (build IntSmaller IntLarger []) with EmptyTree in Hoks.
  split; trivial.
  pose proof (@Inserts_size Z vs EmptyTree eq_refl) as H.
  unfold build, eval, exec in *. fold EmptyTree.
  destruct (Inserts vs EmptyTree) as [oks tree]. cbn [fst snd] in *.
  destruct H as [H _]; [simpl; lia|]. unfold Size. cbn [fst].
  rewrite H, Hoks. simpl. unfold count_true.
  clear. induction (length vs) as [|n IH]; simpl; lia.
Qed.

Lemma Int_distinct_inserts_witness :
  eval (Inserts [20; 10; 30; 25]) EmptyTree = repeat true 4 /\
  eval (@Size Z) (build IntSmaller IntLarger [20; 10; 30; 25]) = 4.
Proof.
  apply (@Int_distinct_inserts [20; 10; 30; 25]).
  - repeat constructor; simpl; intuition discriminate.
  - vm_compute. discriminate.
Defined.

(** X9. For the integer ordering, the in-order traversal of a tree built by
    inserts visits exactly the inserted integers, each once, in increasing
    order. *)
Theorem Int_inorder_distinct_sorted (vs : list Z) :
  let seen := visited (build IntSmaller IntLarger vs) InOrder in
  StronglySorted Z.lt seen /\ NoDup seen /\ forall w, In w seen <-> In w vs.
Proof.
  intros seen. subst seen. rewrite visited_InOrder.
  assert (Hsorted : StronglySorted Z.lt
                      (values (root (build IntSmaller IntLarger vs)))).
  { destruct (build_stored vs Int_strict) as (Hasc & _).
    eapply StronglySorted_weaken; [|exact Hasc].
    intros a b. unfold IntSmaller. apply Z.ltb_lt. }
  split; [exact Hsorted|]. split.
  - clear - Hsorted. induction Hsorted as [|a l Hs IH Hf]; constructor; trivial.
    intros Hin. rewrite Forall_forall in Hf. specialize (Hf a Hin). lia.
  - intros w. split; [apply build_values_incl|].
    intros Hw. apply Int_build_Exists in Hw. apply Exists_stored in Hw.
    destruct Hw as (x & Hx & Hs & Hl).
    destruct (Inserts_predicates vs (New IntSmaller IntLarger)) as [Es El].
    unfold build in *. rewrite Es, El in *. cbn [smaller larger New] in *.
    unfold IntSmaller, IntLarger in *.
    rewrite Z.gtb_ltb in Hl. rewrite Z.ltb_ge in *.
    replace w with x by lia. exact Hx.
Qed.

(** ** The four traversals *)

Section Traversals.

Variable A : Type.
Variable tree : Tree A.

Lemma doLevelOrder_loop_children S (visitor : Visitor A S) node queue s :
  doLevelOrder_loop visitor (node :: queue) s
  = doLevelOrder_loop visitor (queue ++ children node) (visitor (value node) s).
Proof.
  simp doLevelOrder_loop. cbv zeta. unfold children, PushBack.
  destruct (left node), (right node); simpl;
    rewrite ?app_nil_r, <- ?app_assoc; reflexivity.
Qed.

Lemma pending_children (node : _Node A) queue :
  (pending (queue ++ children node) < pending (node :: queue))%nat.
Proof.
  unfold pending, children. rewrite !map_app, !list_sum_app.
  destruct node as [v [|l] [|r]]; simpl; lia.
Qed.

Lemma values_children (node : _Node A) :
  flat_map (fun n => values (addr n)) (children node)
  = values (left node) ++ values (right node).
Proof.
  unfold children. destruct node as [v [|l] [|r]]; simpl;
    rewrite ?app_nil_r; reflexivity.
Qed.

Lemma doPreOrder_values node :
  Permutation (doPreOrder tree node (@record A) []) (values node).
Proof.
  induction node as [|v l r IHl IHr] using ptr_induction; simpl; trivial.
  rewrite doPreOrder_record, (doPreOrder_record tree l). unfold record.
  simpl. rewrite IHl, IHr. apply Permutation_middle.
Qed.

Lemma doPostOrder_values node :
  Permutation (doPostOrder tree node (@record A) []) (values node).
Proof.
  induction node as [|v l r IHl IHr] using ptr_induction; simpl; trivial.
  unfold record at 1. rewrite (doPostOrder_record tree r).
  rewrite IHl, IHr. rewrite <- app_assoc.
  rewrite <- Permutation_middle, app_nil_r.
  apply Permutation_app_head. reflexivity.
Qed.

Lemma doLevelOrder_loop_values queue :
  Permutation (doLevelOrder_loop (@record A) queue [])
              (flat_map (fun n => values (addr n)) queue).
Proof.
  remember (pending queue) as k eqn:Hk. revert queue Hk.
  induction k as [k IH] using lt_wf_ind. intros [|node queue] Hk.
  - simp doLevelOrder_loop. constructor.
  - rewrite doLevelOrder_loop_children, doLevelOrder_loop_record.
    unfold record at 1. simpl app at 1. subst k.
    rewrite (IH _ (pending_children node queue) _ eq_refl).
    rewrite flat_map_app, values_children.
    destruct node as [v l r]. cbn [flat_map values left right].
    rewrite <- !app_assoc. simpl.
    rewrite (Permutation_app_comm (flat_map _ queue)).
    rewrite <- app_assoc. rewrite <- Permutation_middle.
    constructor. rewrite !app_assoc. apply Permutation_app_head.
    reflexivity.
Qed.

(** The queue of [doLevelOrder] is served one level at a time: the nodes
    in it are visited, then their children. *)
Lemma doLevelOrder_loop_front (front : list (_Node A)) : forall back log,
  doLevelOrder_loop (@record A) (front ++ back) log
  = doLevelOrder_loop (@record A) (back ++ flat_map (@children A) front)
                      (log ++ map (@value A) front).
Proof.
  induction front as [|node front IH]; intros back log; simpl.
  - now rewrite !app_nil_r.
  - rewrite doLevelOrder_loop_children, <- app_assoc, IH.
    unfold record. now rewrite <- !app_assoc.
Qed.

Lemma level_children k (queue : list (_Node A)) :
  flat_map (fun n => level (Datatypes.S k) (addr n)) queue
  = flat_map (fun n => level k (addr n)) (flat_map (@children A) queue).
Proof.
  induction queue as [|node queue IH]; [reflexivity|].
  cbn [flat_map]. rewrite flat_map_app, <- IH. f_equal.
  unfold children. destruct node as [v [|l] [|r]]; simpl;
    rewrite ?app_nil_r; reflexivity.
Qed.

Lemma level_roots (queue : list (_Node A)) :
  flat_map (fun n => level 0 (addr n)) queue = map (@value A) queue.
Proof.
  induction queue as [|node queue IH]; [reflexivity|].
  destruct node as [v l r]. simpl. now f_equal.
Qed.

Lemma height_children (node n : _Node A) h :
  (height (addr node) <= Datatypes.S h)%nat -> In n (children node) ->
  (height (addr n) <= h)%nat.
Proof.
  unfold children. destruct node as [v [|l] [|r]]; cbn [height left right];
    simpl; intros Hh Hn; intuition (subst; simpl in *; lia).
Qed.

Lemma flat_map_after_map (X Y Z : Type) (f : Y -> list Z) (g : X -> Y) l :
  flat_map f (map g l) = flat_map (fun x => f (g x)) l.
Proof. induction l as [|x l IH]; simpl; congruence. Qed.

Lemma doLevelOrder_loop_levels h : forall queue : list (_Node A),
  (forall n, In n queue -> (height (addr n) <= h)%nat) ->
  doLevelOrder_loop (@record A) queue []
  = flat_map (fun k => flat_map (fun n => level k (addr n)) queue) (seq 0 h).
Proof.
  induction h as [|h IH]; intros queue Hq.
  - destruct queue as [|node queue]; [reflexivity|].
    specialize (Hq node (or_introl eq_refl)). destruct node. simpl in Hq. lia.
  - pose proof (doLevelOrder_loop_front queue [] []) as H.
    rewrite app_nil_r in H. simpl in H. rewrite H. clear H.
    rewrite doLevelOrder_loop_record, IH.
    + cbn [seq flat_map]. rewrite level_roots. f_equal.
      rewrite <- seq_shift, flat_map_after_map.
      apply flat_map_ext. intros k. symmetry. apply level_children.
    + intros n Hn. apply in_flat_map in Hn. destruct Hn as (node & Hnode & Hn).
      eapply height_children; eauto.
Qed.

Lemma level_empty_iff k (node : ptr A) :
  level k node <> [] <-> (k < height node)%nat.
Proof.
  revert k. induction node as [|v l r IHl IHr] using ptr_induction;
    intros k; cbn [level height value left right].
  - split; [congruence|lia].
  - destruct k as [|k].
    + split; [lia|discriminate].
    + specialize (IHl k). specialize (IHr k).
      destruct (level k l), (level k r); simpl in *; split; intros H;
        try discriminate; try congruence.
      * assert (k < height l \/ k < height r)%nat as [H1|H1] by lia;
          [apply IHl in H1|apply IHr in H1]; congruence.
      * assert (k < height r)%nat by (apply IHr; discriminate). lia.
      * assert (k < height l)%nat by (apply IHl; discriminate). lia.
      * assert (k < height l)%nat by (apply IHl; discriminate). lia.
Qed.

End Traversals.

Lemma nodes_length (A : Type) (node : ptr A) :
  nodes node = length (values node).
Proof.
  induction node as [|x l r IHl IHr] using ptr_induction; simpl; trivial.
  rewrite length_app. simpl. lia.
Qed.

(** X10. The four traversals visit the same nodes: on every tree the
    pre-order, post-order and level-order visits are rearrangements of the
    in-order visit, which has one value per node reachable from the root. *)
Theorem Traversals_visit_each_node_once (A : Type) (tree : Tree A) :
  Permutation (visited tree PreOrder) (visited tree InOrder) /\
  Permutation (visited tree PostOrder) (visited tree InOrder) /\
  Permutation (visited tree LevelOrder) (visited tree InOrder) /\
  length (visited tree InOrder) = nodes (root tree).
Proof.
  rewrite visited_InOrder. unfold visited, eval, Traverse. cbn [fst].
  split; [apply doPreOrder_values|]. split; [apply doPostOrder_values|].
  split; [|symmetry; apply nodes_length].
  change (LevelOrder =? PreOrder) with false.
  change (LevelOrder =? InOrder) with false.
  change (LevelOrder =? PostOrder) with false.
  change (LevelOrder =? LevelOrder) with true. cbv iota.
  unfold doLevelOrder, PushBack. destruct (root tree) as [|n]; [constructor|].
  rewrite doLevelOrder_loop_values. simpl flat_map. now rewrite app_nil_r.
Qed.

(** X11. The level-order traversal is breadth-first: it visits the value
    of the root, then the values one link below it from left to right, then
    those two links below, and so on down to the deepest level. *)
Theorem LevelOrder_by_levels (A : Type) (tree : Tree A) :
  visited tree LevelOrder
  = flat_map (fun k => level k (root tree)) (seq 0 (height (root tree))).
Proof.
  unfold visited, eval, Traverse. cbn [fst].
  change (LevelOrder =? PreOrder) with false.
  change (LevelOrder =? InOrder) with false.
  change (LevelOrder =? PostOrder) with false.
  change (LevelOrder =? LevelOrder) with true. cbv iota.
  unfold doLevelOrder, PushBack. destruct (root tree) as [|n]; [reflexivity|].
  rewrite (@doLevelOrder_loop_levels A (height (addr n))).
  - apply flat_map_ext. intros k. simpl flat_map. now rewrite app_nil_r.
  - intros m [<-|[]]. lia.
Qed.

(** X12. [Depth()] is the number of levels of the tree: there are values
    [k] links below the root exactly when [k < Depth()] (for a tree whose
    height an [int] can hold). *)
Theorem Depth_counts_levels (A : Type) (tree : Tree A) (k : nat) :
  Z.of_nat (height (root tree)) <= GoInt.max_int ->
  (level k (root tree) <> [] <-> Z.of_nat k < eval (@Depth A) tree).
Proof.
  intros H. unfold eval, Depth. cbn [fst].
  rewrite doDepth_height by trivial. rewrite level_empty_iff. lia.
Qed.

Lemma Depth_counts_levels_witness :
  level 1 (root (build IntSmaller IntLarger [20; 10; 30])) <> [] <->
  1 < eval (@Depth Z) (build IntSmaller IntLarger [20; 10; 30]).
Proof.
  apply (@Depth_counts_levels Z (build IntSmaller IntLarger [20; 10; 30]) 1).
  vm_compute. discriminate.
Defined.

(** ** Depth against size *)

Section DepthBounds.

Variable A : Type.

Lemma height_le_nodes (node : ptr A) : (height node <= nodes node)%nat.
Proof.
  induction node as [|x l r IHl IHr] using ptr_induction; simpl; lia.
Qed.

Lemma nodes_lt_pow (node : ptr A) : (nodes node < 2 ^ height node)%nat.
Proof.
  induction node as [|x l r IHl IHr] using ptr_induction;
    cbn [nodes height left right]; [simpl; lia|].
  assert (Hl : (2 ^ height l <= 2 ^ Nat.max (height l) (height r))%nat)
    by (apply Nat.pow_le_mono_r; lia).
  assert (Hr : (2 ^ height r <= 2 ^ Nat.max (height l) (height r))%nat)
    by (apply Nat.pow_le_mono_r; lia).
  rewrite Nat.pow_succ_r'. lia.
Qed.

Lemma height_plug_new (pos : position A) v :
  (height (plug pos nil) <= height (plug pos (new_Node v))
   <= Datatypes.S (height (plug pos nil)))%nat.
Proof.
  induction pos as [|x below IH r|x l below IH]; simpl in *; lia.
Qed.

End DepthBounds.

Lemma build_nodes_le (A : Type) (smaller larger : A -> A -> bool) vs :
  (nodes (root (build smaller larger vs)) <= length vs)%nat.
Proof.
  pose proof (Inserts_values vs (New smaller larger)) as H.
  unfold build, exec. destruct (Inserts vs (New smaller larger)) as [oks tree].
  cbn [snd]. rewrite nodes_length, (Permutation_length H). simpl.
  unfold accepted. rewrite length_map.
  eapply Nat.le_trans; [apply filter_length_le|].
  rewrite length_combine. lia.
Qed.

Lemma build_size_nodes (A : Type) (smaller larger : A -> A -> bool) vs :
  Z.of_nat (length vs) <= GoInt.max_int ->
  size (build smaller larger vs)
  = Z.of_nat (nodes (root (build smaller larger vs))).
Proof.
  intros Hlen.
  pose proof (@Inserts_size A vs (New smaller larger) eq_refl) as H.
  unfold build, exec.
  destruct (Inserts vs (New smaller larger)) as [oks tree]. cbn [snd].
  apply H. simpl. lia.
Qed.

(** X13. On a tree built by inserts (as many as an [int] can count),
    [Depth()] is at most [Size()], and [Size()] is less than two to the
    power [Depth()]. *)
Theorem Depth_against_Size (A : Type) (smaller larger : A -> A -> bool)
    (vs : list A) :
  Z.of_nat (length vs) <= GoInt.max_int ->
  let tree := build smaller larger vs in
  eval (@Depth A) tree <= eval (@Size A) tree /\
  eval (@Size A) tree < 2 ^ eval (@Depth A) tree.
Proof.
  intros Hlen tree. unfold eval, Depth, Size. cbn [fst].
  subst tree. rewrite build_size_nodes by trivial.
  pose proof (build_nodes_le smaller larger vs) as Hn.
  pose proof (height_le_nodes (root (build smaller larger vs))) as Hh.
  pose proof (nodes_lt_pow (root (build smaller larger vs))) as Hp.
  rewrite doDepth_height by lia. split; [lia|].
  apply Nat2Z.inj_lt in Hp. rewrite Nat2Z.inj_pow in Hp. exact Hp.
Qed.

Lemma Depth_against_Size_witness :
  eval (@Depth Z) (build IntSmaller IntLarger [20; 10; 30; 25])
  <= eval (@Size Z) (build IntSmaller IntLarger [20; 10; 30; 25]) /\
  eval (@Size Z) (build IntSmaller IntLarger [20; 10; 30; 25])
  < 2 ^ eval (@Depth Z) (build IntSmaller IntLarger [20; 10; 30; 25]).
Proof.
  apply (@Depth_against_Size Z IntSmaller IntLarger [20; 10; 30; 25]).
  vm_compute. discriminate.
Defined.

(** X14. An insert never makes the tree shallower and deepens it by at
    most one level (on a tree whose height leaves room in an [int]). *)
Theorem Insert_deepens_by_at_most_one (A : Type) (tree : Tree A) (v : A) :
  Z.of_nat (height (root tree)) < GoInt.max_int ->
  eval (@Depth A) tree <= eval (@Depth A) (exec (Insert v) tree)
  <= eval (@Depth A) tree + 1.
Proof.
  intros H. unfold eval, Depth, exec. cbn [fst].
  destruct (Insert_descent tree v)
    as [(pos & E & D & R)|(pos & n & E & D & N & R)]; rewrite R; cbn [snd root].
  - pose proof (height_plug_new pos v) as Hh. rewrite E in *.
    rewrite !doDepth_height by lia. lia.
  - rewrite !doDepth_height by lia. lia.
Qed.

Lemma Insert_deepens_by_at_most_one_witness :
  eval (@Depth Z) (build IntSmaller IntLarger [20; 10; 30])
  <= eval (@Depth Z) (exec (Insert 25) (build IntSmaller IntLarger [20; 10; 30]))
  <= eval (@Depth Z) (build IntSmaller IntLarger [20; 10; 30]) + 1.
Proof.
  apply (@Insert_deepens_by_at_most_one Z
           (build IntSmaller IntLarger [20; 10; 30]) 25).
  vm_compute. reflexivity.
Defined.

(** ** Sorted input *)

Section Spines.

Variable A : Type.

Lemma Inserts_right_spine (vs : list A) : forall (tree : Tree A) pos,
  StrictOrdering (smaller tree) (larger tree) ->
  root tree = plug pos nil ->
  (forall v, In v vs -> descent tree v pos) ->
  ascending (smaller tree) vs ->
  exists sub, root (exec (Inserts vs) tree) = plug pos sub /\
              height sub = length vs.
Proof.
  induction vs as [|v vs IH]; intros tree pos strict Hroot Hpos Hasc.
  - exists nil. auto.
  - rewrite exec_Inserts_cons. unfold exec at 2.
    rewrite (Insert_at tree v pos Hroot) by (apply Hpos; now left).
    cbn [snd]. set (tree1 := Build_Tree _ _ _ _).
    inversion_clear Hasc as [|? ? Hs Hf]. rewrite Forall_forall in Hf.
    destruct (IH tree1 (compose pos (InRight v nil (Here A))))
      as (sub & Hsub & Hh); trivial.
    + subst tree1. cbn [root]. now rewrite plug_compose.
    + intros w Hw. apply descent_compose.
      * apply descent_ext with (tree := tree); trivial.
        apply Hpos. now right.
      * subst tree1. simpl. rewrite (larger_converse strict).
        rewrite (smaller_asym strict _ _ (Hf w Hw)). auto.
    + exists (addr (Build_Node v nil sub)). rewrite Hsub, plug_compose.
      split; [reflexivity|]. simpl. now rewrite Hh.
Qed.

Lemma Inserts_left_spine (vs : list A) : forall (tree : Tree A) pos,
  root tree = plug pos nil ->
  (forall v, In v vs -> descent tree v pos) ->
  ascending (fun x y => smaller tree y x) vs ->
  exists sub, root (exec (Inserts vs) tree) = plug pos sub /\
              height sub = length vs.
Proof.
  induction vs as [|v vs IH]; intros tree pos Hroot Hpos Hasc.
  - exists nil. auto.
  - rewrite exec_Inserts_cons. unfold exec at 2.
    rewrite (Insert_at tree v pos Hroot) by (apply Hpos; now left).
    cbn [snd]. set (tree1 := Build_Tree _ _ _ _).
    inversion_clear Hasc as [|? ? Hs Hf]. rewrite Forall_forall in Hf.
    destruct (IH tree1 (compose pos (InLeft v (Here A) nil)))
      as (sub & Hsub & Hh); trivial.
    + subst tree1. cbn [root]. now rewrite plug_compose.
    + intros w Hw. apply descent_compose.
      * apply descent_ext with (tree := tree); trivial.
        apply Hpos. now right.
      * subst tree1. simpl. auto.
    + exists (addr (Build_Node v sub nil)). rewrite Hsub, plug_compose.
      split; [reflexivity|]. simpl. rewrite Hh. now rewrite Nat.max_0_r.
Qed.

End Spines.

(** X15. Sorted input degenerates the tree into a list: when the values
    are inserted from the empty tree in strictly ascending order, or in
    strictly descending order, under a consistent strict ordering,
    [Depth()] equals the number of values inserted (as many as an [int] can
    count), and so equals [Size()]. *)
Theorem Sorted_inserts_degenerate (A : Type) (smaller larger : A -> A -> bool)
    (vs : list A) :
  StrictOrdering smaller larger ->
  ascending smaller vs \/ ascending (fun x y => smaller y x) vs ->
  Z.of_nat (length vs) <= GoInt.max_int ->
  let tree := build smaller larger vs in
  eval (@Depth A) tree = Z.of_nat (length vs) /\
  eval (@Size A) tree = Z.of_nat (length vs).
Proof.
  intros strict Hsorted Hlen tree. subst tree.
  assert (Hspine : exists sub, root (build smaller larger vs) = sub /\
                               height sub = length vs).
  { unfold build. destruct Hsorted as [Hasc|Hdesc].
    - apply (@Inserts_right_spine A vs (New smaller larger) (Here A));
        simpl; trivial.
    - apply (@Inserts_left_spine A vs (New smaller larger) (Here A));
        simpl; trivial. }
  destruct Hspine as (sub & Hroot & Hh).
  pose proof (build_nodes_le smaller larger vs) as Hn.
  pose proof (height_le_nodes (root (build smaller larger vs))) as Hhn.
  unfold eval, Depth, Size. cbn [fst].
  rewrite build_size_nodes by trivial.
  rewrite doDepth_height by lia. rewrite Hroot, Hh in *. lia.
Qed.

Lemma Sorted_inserts_degenerate_witness :
  eval (@Depth Z) (build IntSmaller IntLarger [1; 2; 3; 4; 5]) = 5 /\
  eval (@Size Z) (build IntSmaller IntLarger [1; 2; 3; 4; 5]) = 5.
Proof.
  apply (@Sorted_inserts_degenerate Z IntSmaller IntLarger [1; 2; 3; 4; 5]
           Int_strict).
  - left. unfold ascending. repeat constructor.
  - vm_compute. discriminate.
Defined.

(** ** What an insert changes *)

(** X16. [Insert] keeps the ordering invariant of the data model on every
    tree that has it, whatever the predicates: if below every node the left
    subtree holds smaller values and the right subtree larger ones, the
    same is true after the insert. *)
Theorem Insert_keeps_ordered (A : Type) (tree : Tree A) (v : A) :
  ordered (smaller tree) (larger tree) (root tree) ->
  ordered (smaller tree) (larger tree) (root (exec (Insert v) tree)).
Proof.
  intros H. now apply (Insert_ordered tree v eq_refl eq_refl).
Qed.

Lemma Insert_keeps_ordered_witness :
  ordered IntSmaller IntLarger
          (root (exec (Insert 25) (build IntSmaller IntLarger [20; 10; 30]))).
Proof.
  apply (@Insert_keeps_ordered Z (build IntSmaller IntLarger [20; 10; 30]) 25).
  simpl. repeat constructor.
Defined.

(** X17. [Insert] never removes or reorders what the tree holds: the
    in-order visit after an insert that returned true is the in-order visit
    before it with the new value put in at one place, and after an insert
    that returned false it is the same visit. *)
Theorem Insert_extends_inorder (A : Type) (tree : Tree A) (v : A) :
  exists front back,
    visited tree InOrder = front ++ back /\
    visited (exec (Insert v) tree) InOrder
    = if eval (Insert v) tree then front ++ v :: back else front ++ back.
Proof.
  rewrite !visited_InOrder. unfold eval, exec.
  destruct (Insert_descent tree v)
    as [(pos & E & D & R)|(pos & n & E & D & N & R)]; rewrite R; cbn [fst snd root].
  - destruct (values_plug pos) as (b & a & H).
    exists b, a. rewrite E, !H. auto.
  - exists (values (root tree)), []. now rewrite app_nil_r.
Qed.

Lemma ascending_middle (A : Type) (smaller : A -> A -> bool) front v back :
  ascending smaller (front ++ v :: back) ->
  Forall (fun x => smaller x v = true) front /\
  Forall (fun x => smaller v x = true) back.
Proof.
  unfold ascending. induction front as [|a front IH]; simpl; intros H.
  - inversion_clear H as [|? ? _ Hf]. auto.
  - inversion_clear H as [|? ? Hs Hf]. destruct (IH Hs) as [H1 H2].
    split; trivial. constructor; trivial.
    rewrite Forall_forall in Hf. apply Hf. apply in_or_app. right. now left.
Qed.

(** X18. Under a consistent strict ordering, an insert that returns true
    puts the value at its sorted place: on a tree that has the ordering
    invariant, the in-order visit after the insert is the one before it
    with the new value between the values smaller than it and the values
    larger than it. *)
Theorem Insert_at_sorted_place (A : Type) (tree : Tree A) (v : A) :
  StrictOrdering (smaller tree) (larger tree) ->
  ordered (smaller tree) (larger tree) (root tree) ->
  eval (Insert v) tree = true ->
  exists front back,
    visited tree InOrder = front ++ back /\
    visited (exec (Insert v) tree) InOrder = front ++ v :: back /\
    Forall (fun x => smaller tree x v = true) front /\
    Forall (fun x => smaller tree v x = true) back.
Proof.
  intros strict Hord Hok.
  pose proof (Insert_ordered tree v eq_refl eq_refl Hord) as (_ & _ & Hord').
  apply (ordered_ascending strict) in Hord'.
  rewrite !visited_InOrder. unfold eval, exec in *.
  destruct (Insert_descent tree v)
    as [(pos & E & D & R)|(pos & n & E & D & N & R)]; rewrite R in *;
    cbn [fst snd root] in *; [|discriminate].
  destruct (values_plug pos) as (b & a & H).
  exists b, a. rewrite E, !H in *. simpl in *.
  split; trivial. split; trivial. now apply ascending_middle.
Qed.

Lemma Insert_at_sorted_place_witness :
  exists front back,
    visited (build IntSmaller IntLarger [20; 10; 30]) InOrder = front ++ back /\
    visited (exec (Insert 25) (build IntSmaller IntLarger [20; 10; 30])) InOrder
    = front ++ 25 :: back /\
    Forall (fun x => IntSmaller x 25 = true) front /\
    Forall (fun x => IntSmaller 25 x = true) back.
Proof.
  apply (@Insert_at_sorted_place Z (build IntSmaller IntLarger [20; 10; 30]) 25).
  - exact Int_strict.
  - simpl. repeat constructor.
  - reflexivity.
Defined.

(** ** Integer trees: values and lookups *)

Section IntTrees.

Variable tree : Tree Z.
Hypothesis Hsmaller : smaller tree = IntSmaller.
Hypothesis Hlarger : larger tree = IntLarger.

Lemma Int_Exists_Insert v w :
  eval (Exists w) (exec (Insert v) tree) = (w =? v) || eval (Exists w) tree.
Proof.
  destruct (Z.eqb_spec w v) as [->|Hne]; simpl.
  - apply Exists_Insert_same; rewrite ?Hsmaller, ?Hlarger;
      apply Int_irreflexive.
  - apply Exists_Insert_frame. rewrite Hsmaller, Hlarger.
    unfold IntSmaller, IntLarger. rewrite Z.gtb_ltb, !Z.ltb_lt. lia.
Qed.

Lemma Int_Exists_In w :
  eval (Exists w) tree = true -> In w (values (root tree)).
Proof.
  intros H. apply Exists_stored in H. destruct H as (x & Hx & Hs & Hl).
  rewrite Hsmaller, Hlarger in *. unfold IntSmaller, IntLarger in *.
  rewrite Z.gtb_ltb in Hl. rewrite Z.ltb_ge in *.
  replace w with x by lia. exact Hx.
Qed.

Lemma Int_values_Insert v w :
  In w (values (root (exec (Insert v) tree))) <->
  w = v \/ In w (values (root tree)).
Proof.
  pose proof (Insert_values v tree) as Hv. unfold exec.
  destruct (Insert_descent tree v)
    as [(pos & E & D & R)|(pos & n & E & D & N & R)]; rewrite R in *;
    cbn [snd root] in *.
  - split; intros H.
    + apply (Permutation_in _ Hv) in H. destruct H; auto.
    + apply (Permutation_in _ (Permutation_sym Hv)). destruct H; [left|right];
        auto.
  - split; auto. intros [->|H]; trivial.
    apply Int_Exists_In. unfold eval, Exists. cbn [fst].
    apply doExists_descent. eauto.
Qed.

Lemma Insert_size_if_absent v :
  GoInt.min_int <= size tree -> size tree < GoInt.max_int ->
  size (exec (Insert v) tree)
  = size tree + (if eval (Exists v) tree then 0 else 1).
Proof.
  intros Hmin Hmax. rewrite max_int_value, min_int_value in *.
  pose proof (Insert_negb_Exists tree v) as Hok.
  unfold eval, exec, Exists in *.
  destruct (Insert_descent tree v)
    as [(pos & E & D & R)|(pos & n & E & D & N & R)]; rewrite R in *;
    cbn [fst snd size] in *;
    destruct (doExists tree (root tree) v); try discriminate; [|lia].
  apply wrap_in_range. unfold GoInt.in_range.
  rewrite max_int_value, min_int_value. lia.
Qed.

End IntTrees.

Lemma doExists_of_In (A : Type) (tree : Tree A) (node : ptr A) w :
  StrictOrdering (smaller tree) (larger tree) ->
  ordered (smaller tree) (larger tree) node ->
  In w (values node) -> doExists tree node w = true.
Proof.
  intros strict.
  induction node as [|x l r IHl IHr] using ptr_induction;
    cbn [ordered values doExists value left right]; [intros _ []|].
  intros (Hl & Hr & Ol & Or) Hw. rewrite Forall_forall in Hl, Hr.
  apply in_app_or in Hw. destruct Hw as [Hw|[<-|Hw]].
  - rewrite (Hl w Hw). auto.
  - rewrite (larger_converse strict), (smaller_irrefl strict). reflexivity.
  - pose proof (Hr w Hw) as Hlarger. rewrite Hlarger.
    rewrite (larger_converse strict) in Hlarger.
    rewrite (smaller_asym strict _ _ Hlarger). auto.
Qed.

(** ** The midpoint recursion on any range and any integer tree *)

Lemma doCompleteTree_range (n : nat) : forall b e (tree : Tree Z),
  Z.of_nat n = Z.max 0 (e - b + 1) -> 0 <= b -> 2 * e <= GoInt.max_int ->
  smaller tree = IntSmaller -> larger tree = IntLarger ->
  exists tree',
    (forall fuel, (n < fuel)%nat -> doCompleteTree fuel tree b e = Some tree') /\
    smaller tree' = IntSmaller /\ larger tree' = IntLarger /\
    (ordered IntSmaller IntLarger (root tree) ->
     ordered IntSmaller IntLarger (root tree')) /\
    (forall w, eval (Exists w) tree'
               = (b <=? w) && (w <=? e) || eval (Exists w) tree) /\
    ((forall w, b <= w <= e -> eval (Exists w) tree = false) ->
     GoInt.min_int <= size tree ->
     size tree + Z.of_nat n <= GoInt.max_int ->
     size tree' = size tree + Z.of_nat n).
Proof.
  induction n as [n IH] using lt_wf_ind. intros b e tree Hn Hb He Hs Hl.
  destruct (Z_gt_le_dec b e) as [Hgt|Hle].
  { exists tree. split; [|split; [|split; [|split; [|split]]]]; trivial.
    - intros [|fuel] Hfuel; [lia|]. simpl.
      now replace (b >? e) with true by (symmetry; apply Z.gtb_lt; lia).
    - intros w. destruct (Z.leb_spec b w), (Z.leb_spec w e); simpl; trivial.
      lia.
    - intros _ _ _. lia. }
  rewrite max_int_value in He.
  remember ((b + e) / 2) as mid eqn:Hdef.
  assert (Htwice : 2 * mid <= b + e < 2 * mid + 2).
  { rewrite Hdef. pose proof (Z.div_mod (b + e) 2).
    pose proof (Z.mod_pos_bound (b + e) 2). lia. }
  assert (Emid : GoInt.quo (GoInt.add b e) 2 = mid).
  { unfold GoInt.quo, GoInt.add.
    rewrite (@wrap_in_range (b + e))
      by (unfold GoInt.in_range; rewrite min_int_value, max_int_value; lia).
    rewrite Z.quot_div_nonneg by lia. rewrite <- Hdef.
    apply wrap_in_range.
    unfold GoInt.in_range; rewrite min_int_value, max_int_value; lia. }
  assert (Esub : GoInt.sub mid 1 = mid - 1).
  { apply wrap_in_range.
    unfold GoInt.in_range; rewrite min_int_value, max_int_value; lia. }
  assert (Eadd : GoInt.add mid 1 = mid + 1).
  { apply wrap_in_range.
    unfold GoInt.in_range; rewrite min_int_value, max_int_value; lia. }
  set (tree1 := exec (Insert mid) tree).
  destruct (Insert_predicates tree mid) as [Hs1 Hl1]. fold tree1 in Hs1, Hl1.
  rewrite Hs in Hs1. rewrite Hl in Hl1.
  assert (HnL : (Z.to_nat (mid - b) < n)%nat) by lia.
  assert (HnR : (Z.to_nat (e - mid) < n)%nat) by lia.
  destruct (IH _ HnL b (mid - 1) tree1)
    as (tree2 & F2 & Hs2 & Hl2 & O2 & M2 & S2);
    [rewrite ?max_int_value; lia..|trivial|trivial|].
  destruct (IH _ HnR (mid + 1) e tree2)
    as (tree3 & F3 & Hs3 & Hl3 & O3 & M3 & S3);
    [rewrite ?max_int_value; lia..|trivial|trivial|].
  rewrite Z2Nat.id in S2, S3 by lia.
  exists tree3. split; [|split; [|split; [|split; [|split]]]]; trivial.
  - intros [|fuel] Hfuel; [lia|]. cbn [doCompleteTree].
    rewrite gtb_false by lia. rewrite Emid, Esub, Eadd. fold tree1.
    rewrite F2 by lia. apply F3. lia.
  - intros Hord. apply O3, O2.
    apply (Insert_ordered tree mid (eq_sym Hs) (eq_sym Hl) Hord).
  - intros w. rewrite M3, M2. unfold tree1.
    rewrite (Int_Exists_Insert tree Hs Hl).
    destruct (eval (Exists w) tree); [now rewrite !orb_true_r|].
    rewrite !orb_false_r.
    destruct (Z.leb_spec (mid + 1) w), (Z.leb_spec w e), (Z.leb_spec b w),
      (Z.leb_spec w (mid - 1)), (Z.eqb_spec w mid); simpl; trivial; lia.
  - intros Habsent Hmin Hmax. rewrite max_int_value, min_int_value in *.
    assert (Hsize1 : size tree1 = size tree + 1).
    { unfold tree1. rewrite (Insert_size_if_absent tree mid)
        by (rewrite ?max_int_value, ?min_int_value; lia).
      rewrite Habsent by lia. reflexivity. }
    assert (Hsize2 : size tree2 = size tree1 + (mid - b)).
    { apply S2; rewrite ?max_int_value, ?min_int_value; try lia.
      intros w Hw. unfold tree1. rewrite (Int_Exists_Insert tree Hs Hl).
      rewrite Habsent by lia.
      destruct (Z.eqb_spec w mid); trivial. lia. }
    rewrite S3; rewrite ?max_int_value, ?min_int_value; try lia.
    intros w Hw. rewrite M2. unfold tree1.
    rewrite (Int_Exists_Insert tree Hs Hl). rewrite Habsent by lia.
    destruct (Z.leb_spec b w), (Z.leb_spec w (mid - 1)), (Z.eqb_spec w mid);
      simpl; trivial; lia.
Qed.

(** X19. On any integer tree, [doCompleteTree(tree, begin, end)] with
    [0 <= begin] and [2*end] within the [int] range returns and adds
    exactly the integers of [begin..end]: afterwards [Exists] finds a value
    when it lies in the range or was found before, and when no value of the
    range was in the tree [Size()] has grown by the length of the range
    (nothing changes when [begin > end]). *)
Theorem doCompleteTree_adds_range (tree : Tree Z) (b e : Z) :
  smaller tree = IntSmaller -> larger tree = IntLarger ->
  0 <= b -> 2 * e <= GoInt.max_int ->
  exists tree',
    (forall fuel, (Z.to_nat (e - b + 1) < fuel)%nat ->
                  doCompleteTree fuel tree b e = Some tree') /\
    (forall w, eval (Exists w) tree'
               = (b <=? w) && (w <=? e) || eval (Exists w) tree) /\
    ((forall w, b <= w <= e -> eval (Exists w) tree = false) ->
     GoInt.min_int <= eval (@Size Z) tree ->
     eval (@Size Z) tree + Z.max 0 (e - b + 1) <= GoInt.max_int ->
     eval (@Size Z) tree' = eval (@Size Z) tree + Z.max 0 (e - b + 1)).
Proof.
  intros Hs Hl Hb He.
  destruct (@doCompleteTree_range (Z.to_nat (e - b + 1)) b e tree)
    as (tree' & F & _ & _ & _ & M & S); trivial; [lia|].
  exists tree'. split; [exact F|]. split; [exact M|].
  unfold eval, Size. cbn [fst]. intros Habsent Hmin Hmax.
  replace (Z.max 0 (e - b + 1)) with (Z.of_nat (Z.to_nat (e - b + 1)))
    in * by lia.
  now apply S.
Qed.

Lemma doCompleteTree_adds_range_witness :
  exists tree',
    (forall fuel, (Z.to_nat (6 - 4 + 1) < fuel)%nat ->
       doCompleteTree fuel (build IntSmaller IntLarger [20; 10; 30]) 4 6
       = Some tree') /\
    (forall w, eval (Exists w) tree'
               = (4 <=? w) && (w <=? 6)
                 || eval (Exists w) (build IntSmaller IntLarger [20; 10; 30])) /\
    eval (@Size Z) tree'
    = eval (@Size Z) (build IntSmaller IntLarger [20; 10; 30]) + Z.max 0 (6 - 4 + 1).
Proof.
  destruct (@doCompleteTree_adds_range
              (build IntSmaller IntLarger [20; 10; 30]) 4 6)
    as (tree' & F & M & S); try reflexivity; try lia.
  { vm_compute. discriminate. }
  exists tree'. split; [exact F|]. split; [exact M|]. apply S.
  - intros w Hw.
    destruct (eval (Exists w) (build IntSmaller IntLarger [20; 10; 30])) eqn:E;
      trivial.
    apply Int_build_Exists in E. simpl in E. lia.
  - vm_compute. discriminate.
  - vm_compute. discriminate.
Defined.

(** ** Increasing lists of integers *)

Lemma increasing_ext (l1 : list Z) : forall l2,
  StronglySorted Z.lt l1 -> StronglySorted Z.lt l2 ->
  (forall w, In w l1 <-> In w l2) -> l1 = l2.
Proof.
  induction l1 as [|a l1 IH]; intros [|b l2] H1 H2 Hin.
  - reflexivity.
  - destruct (proj2 (Hin b) (or_introl eq_refl)).
  - destruct (proj1 (Hin a) (or_introl eq_refl)).
  - inversion_clear H1 as [|? ? Hs1 Hf1]. inversion_clear H2 as [|? ? Hs2 Hf2].
    rewrite Forall_forall in Hf1, Hf2.
    assert (a = b).
    { destruct (proj1 (Hin a) (or_introl eq_refl)) as [|Ha]; [congruence|].
      destruct (proj2 (Hin b) (or_introl eq_refl)) as [|Hb]; [congruence|].
      specialize (Hf1 b Hb). specialize (Hf2 a Ha). lia. }
    subst b. f_equal. apply IH; trivial.
    intros w. split; intros Hw.
    + destruct (proj1 (Hin w) (or_intror Hw)) as [<-|]; trivial.
      specialize (Hf1 a Hw). lia.
    + destruct (proj2 (Hin w) (or_intror Hw)) as [<-|]; trivial.
      specialize (Hf2 a Hw). lia.
Qed.

Lemma increasing_seq n : forall start,
  StronglySorted Z.lt (map Z.of_nat (seq start n)).
Proof.
  induction n as [|n IH]; intros start; simpl; constructor; trivial.
  apply Forall_forall. intros w Hw. apply in_map_iff in Hw.
  destruct Hw as (k & <- & Hk). apply in_seq in Hk. lia.
Qed.

Lemma in_range_seq start n w :
  In w (map Z.of_nat (seq start n))
  <-> Z.of_nat start <= w < Z.of_nat start + Z.of_nat n.
Proof.
  rewrite in_map_iff. split.
  - intros (k & <- & Hk). apply in_seq in Hk. lia.
  - intros H. exists (Z.to_nat w). split; [lia|]. apply in_seq. lia.
Qed.

Lemma increasing_NoDup (l : list Z) : StronglySorted Z.lt l -> NoDup l.
Proof.
  induction 1 as [|a l Hs IH Hf]; constructor; trivial.
  intros Hin. rewrite Forall_forall in Hf. specialize (Hf a Hin). lia.
Qed.

Lemma Int_ordered_increasing (node : ptr Z) :
  ordered IntSmaller IntLarger node -> StronglySorted Z.lt (values node).
Proof.
  intros H. apply (ordered_ascending Int_strict) in H.
  eapply StronglySorted_weaken; [|exact H].
  intros a b. unfold IntSmaller. apply Z.ltb_lt.
Qed.

(** X20. For every count within the range of the recursion,
    [CompleteTree(count)] holds exactly the integers 1..count: its in-order
    traversal visits 1, 2, ..., count. *)
Theorem CompleteTree_inorder (count : Z) :
  0 <= count -> 2 * count <= GoInt.max_int ->
  exists tree,
    (forall fuel, (Z.to_nat count < fuel)%nat ->
                  CompleteTree fuel count = Some tree) /\
    visited tree InOrder = map Z.of_nat (seq 1 (Z.to_nat count)).
Proof.
  intros H0 Hmax.
  destruct (@doCompleteTree_range (Z.to_nat count) 1 count EmptyTree)
    as (tree & F & Hs & Hl & O & M & _); trivial; [lia..|].
  exists tree. split; [exact F|]. rewrite visited_InOrder.
  specialize (O I).
  apply increasing_ext.
  - now apply Int_ordered_increasing.
  - apply increasing_seq.
  - intros w. rewrite in_range_seq. split.
    + intros Hw.
      assert (E : eval (Exists w) tree = true).
      { unfold eval, Exists. cbn [fst]. apply doExists_of_In; trivial.
        - rewrite Hs, Hl. exact Int_strict.
        - now rewrite Hs, Hl. }
      rewrite M in E. change (eval (Exists w) EmptyTree) with false in E.
      rewrite orb_false_r in E. apply andb_true_iff in E.
      rewrite !Z.leb_le in E. lia.
    + intros Hw. apply (Int_Exists_In tree Hs Hl). rewrite M.
      apply orb_true_iff. left. apply andb_true_iff.
      rewrite !Z.leb_le. lia.
Qed.

Lemma CompleteTree_inorder_witness :
  exists tree,
    (forall fuel, (Z.to_nat 15 < fuel)%nat -> CompleteTree fuel 15 = Some tree) /\
    visited tree InOrder = map Z.of_nat (seq 1 (Z.to_nat 15)).
Proof.
  apply (@CompleteTree_inorder 15); [lia|]. vm_compute. discriminate.
Defined.

(** ** Trees of random values *)

Lemma range_full (l : list Z) (max : Z) :
  NoDup l -> (forall w, In w l -> 0 <= w < max) ->
  Z.of_nat (length l) = max ->
  forall w, 0 <= w < max -> In w l.
Proof.
  intros Hnd Hrange Hlen w Hw.
  apply (@NoDup_length_incl Z l (map Z.of_nat (seq 0 (Z.to_nat max))));
    trivial.
  - rewrite length_map, length_seq. lia.
  - intros x Hx. apply in_range_seq. specialize (Hrange x Hx). lia.
  - apply in_range_seq. lia.
Qed.

Lemma RandomTree_loop_outcome (count max : Z) (draws : list Z) :
  forall (tree : Tree Z) (seen : list Z),
  count <= max -> max <= GoInt.max_int ->
  smaller tree = IntSmaller -> larger tree = IntLarger ->
  size tree = Z.of_nat (nodes (root tree)) ->
  ordered IntSmaller IntLarger (root tree) ->
  (forall w, In w (values (root tree)) <-> In w seen) ->
  size tree <= Z.max 0 count ->
  match RandomTree_loop draws tree count max with
  | Returns tree' =>
      smaller tree' = IntSmaller /\ larger tree' = IntLarger /\
      size tree' = Z.max 0 count /\
      size tree' = Z.of_nat (nodes (root tree')) /\
      ordered IntSmaller IntLarger (root tree') /\
      (forall w, In w (values (root tree')) -> In w (seen ++ draws))
  | Panics => False
  | Starves => Z.of_nat (length (nodup Z.eq_dec (seen ++ draws))) < count
  end.
Proof.
  induction draws as [|d draws IH];
    intros tree seen Hcm Hmax Hs Hl Hsize Hord Hin Hle;
    cbn [RandomTree_loop]; unfold eval, Size; cbn [fst];
    destruct (Z.ltb_spec (size tree) count) as [Hlt|Hge].
  - rewrite app_nil_r.
    assert (Hperm : Permutation (values (root tree)) (nodup Z.eq_dec seen)).
    { apply NoDup_Permutation.
      - apply increasing_NoDup. now apply Int_ordered_increasing.
      - apply NoDup_nodup.
      - intros w. rewrite nodup_In. apply Hin. }
    rewrite <- (Permutation_length Hperm), <- nodes_length. lia.
  - repeat split; trivial; try lia.
    intros w Hw. apply in_or_app. left. now apply Hin.
  - destruct (Z.leb_spec max 0) as [Hmax0|Hmax0]; [lia|].
    replace (seen ++ d :: draws) with ((seen ++ [d]) ++ draws)
      by now rewrite <- app_assoc.
    destruct (Insert_predicates tree d) as [Hs1 Hl1].
    assert (Hnodes : Z.of_nat (nodes (root tree)) < GoInt.max_int) by lia.
    pose proof (Insert_size d tree Hsize Hnodes) as Hstep.
    pose proof (Insert_ordered tree d (eq_sym Hs) (eq_sym Hl) Hord)
      as (_ & _ & Hord1).
    pose proof (Int_values_Insert tree Hs Hl d) as Hin1.
    unfold exec in *. destruct (Insert d tree) as [ok tree1].
    cbn [snd] in *. destruct Hstep as [Hstep1 Hstep2].
    apply IH; trivial; try congruence.
    + intros w. rewrite Hin1, in_app_iff, Hin. simpl. intuition.
    + destruct ok; lia.
  - repeat split; trivial; try lia.
    intros w Hw. apply in_or_app. left. now apply Hin.
Qed.

(** X21. [RandomTree(count, max)] with [count <= max] never panics.  Given
    values drawn in [0, max), it either runs out of draws, which happens
    only when they hold fewer than [count] distinct values, or returns a
    tree of exactly [count] distinct drawn values (none when
    [count <= 0]), visited in increasing order; when [count = max] these are
    all the integers of [0, max), so that [Minimum()] is 0 and [Maximum()]
    is [max - 1]. *)
Theorem RandomTree_outcome (draws : list Z) (count max : Z) :
  count <= max -> max <= GoInt.max_int ->
  Forall (fun d => 0 <= d < max) draws ->
  match RandomTree draws count max with
  | Returns tree =>
      eval (@Size Z) tree = Z.max 0 count /\
      Z.of_nat (length (visited tree InOrder)) = Z.max 0 count /\
      StronglySorted Z.lt (visited tree InOrder) /\
      (forall w, In w (visited tree InOrder) -> In w draws) /\
      (0 < count -> count = max ->
       eval (@Minimum Z) tree = Some 0 /\
       eval (@Maximum Z) tree = Some (max - 1))
  | Panics => False
  | Starves => Z.of_nat (length (nodup Z.eq_dec draws)) < count
  end.
Proof.
  intros Hcm Hmax Hdraws. unfold RandomTree.
  rewrite gtb_false by trivial.
  pose proof (@RandomTree_loop_outcome count max draws EmptyTree []
                Hcm Hmax eq_refl eq_refl eq_refl I) as H.
  simpl app in H.
  destruct (RandomTree_loop draws EmptyTree count max) as [tree| |];
    [|apply H; simpl; [tauto|lia]..].
  destruct H as (Hs & Hl & Hsize & Hnodes & Hord & Hin);
    [simpl; tauto|simpl; lia|].
  rewrite visited_InOrder.
  pose proof (Int_ordered_increasing _ Hord) as Hinc.
  assert (Hlen : Z.of_nat (length (values (root tree))) = Z.max 0 count)
    by (rewrite <- nodes_length; lia).
  split; [exact Hsize|]. split; [exact Hlen|]. split; [exact Hinc|].
  split; [exact Hin|].
  intros Hpos Heq. subst max.
  rewrite Forall_forall in Hdraws.
  assert (Hfull : forall w, 0 <= w < count -> In w (values (root tree))).
  { apply range_full.
    - now apply increasing_NoDup.
    - intros w Hw. apply Hdraws. now apply Hin.
    - lia. }
  rewrite Minimum_first, Maximum_last.
  pose proof (Hfull 0 ltac:(lia)) as Hzero.
  pose proof (Hfull (count - 1) ltac:(lia)) as Hlast.
  assert (Hbounds : forall w, In w (values (root tree)) -> 0 <= w < count)
    by (intros w Hw; apply Hdraws; now apply Hin).
  clear - Hinc Hzero Hlast Hbounds. split.
  - destruct (values (root tree)) as [|lo rest]; [destruct Hzero|].
    simpl. f_equal. inversion_clear Hinc as [|? ? _ Hf].
    rewrite Forall_forall in Hf.
    specialize (Hbounds lo (or_introl eq_refl)).
    destruct Hzero as [|Hz]; trivial. specialize (Hf 0 Hz). lia.
  - destruct (exists_last (l := values (root tree))) as (front & hi & E).
    { intros E. rewrite E in Hlast. destruct Hlast. }
    rewrite E in *. rewrite rev_app_distr. simpl. f_equal.
    assert (Hfront : Forall (fun y => y < hi) front).
    { clear - Hinc. induction front as [|a front IH]; simpl in *;
        constructor; inversion_clear Hinc as [|? ? Hs Hf]; auto.
      rewrite Forall_forall in Hf. apply Hf. apply in_or_app. right. now left. }
    rewrite Forall_forall in Hfront.
    assert (Hhi : In hi (front ++ [hi]))
      by (apply in_or_app; right; now left).
    specialize (Hbounds hi Hhi).
    apply in_app_or in Hlast. destruct Hlast as [Hl|[Hl|[]]]; [|lia].
    specialize (Hfront _ Hl). lia.
Qed.

Lemma RandomTree_outcome_witness :
  match RandomTree [2; 0; 2; 1; 0] 3 3 with
  | Returns tree =>
      eval (@Size Z) tree = 3 /\
      eval (@Minimum Z) tree = Some 0 /\ eval (@Maximum Z) tree = Some 2
  | Panics => False
  | Starves => False
  end.
Proof.
  assert (Hcm : 3 <= 3) by lia.
  assert (Hmax : 3 <= GoInt.max_int) by (vm_compute; discriminate).
  assert (Hdraws : Forall (fun d => 0 <= d < 3) [2; 0; 2; 1; 0])
    by (repeat constructor; lia).
  pose proof (RandomTree_outcome Hcm Hmax Hdraws) as H.
  destruct (RandomTree [2; 0; 2; 1; 0] 3 3) as [tree| |] eqn:E.
  - destruct H as (Hsize & _ & _ & _ & Hext). split; [exact Hsize|].
    apply Hext; lia.
  - exact H.
  - vm_compute in E. discriminate.
Defined.

(** ** Traversals against lookups and inserts *)

Lemma visited_stored (A : Type) (tree : Tree A) traversal x :
  In x (visited tree traversal) -> In x (values (root tree)).
Proof.
  unfold visited, eval, Traverse. cbn [fst].
  destruct (traversal =? PreOrder).
  { apply Permutation_in, doPreOrder_values. }
  destruct (traversal =? InOrder).
  { now rewrite doInOrder_record. }
  destruct (traversal =? PostOrder).
  { apply Permutation_in, doPostOrder_values. }
  destruct (traversal =? LevelOrder); [|intros []].
  unfold doLevelOrder, PushBack. destruct (root tree) as [|n]; [intros []|].
  intros H. apply (Permutation_in _ (doLevelOrder_loop_values [n])) in H.
  simpl in H. now rewrite app_nil_r in H.
Qed.

(** X22. On a tree that has the ordering invariant, under a consistent
    strict ordering, [Exists] finds every value that [Traverse] visits, in
    whichever order. *)
Theorem Visited_values_exist (A : Type) (tree : Tree A)
    (traversal : Traversal) (x : A) :
  StrictOrdering (smaller tree) (larger tree) ->
  ordered (smaller tree) (larger tree) (root tree) ->
  In x (visited tree traversal) ->
  eval (Exists x) tree = true.
Proof.
  intros strict Hord Hx. unfold eval, Exists. cbn [fst].
  apply doExists_of_In; trivial. eapply visited_stored; eauto.
Qed.

Lemma Visited_values_exist_witness :
  eval (Exists 10) (build IntSmaller IntLarger [20; 10; 30]) = true.
Proof.
  apply (@Visited_values_exist Z (build IntSmaller IntLarger [20; 10; 30])
           LevelOrder 10).
  - exact Int_strict.
  - simpl. repeat constructor.
  - vm_compute. auto.
Defined.

Lemma Inserts_preorder (A : Type) (tree0 : Tree A) (node : ptr A) :
  forall (tree : Tree A) pos,
  StrictOrdering (smaller tree) (larger tree) ->
  ordered (smaller tree) (larger tree) node ->
  root tree = plug pos nil ->
  (forall v, In v (values node) -> descent tree v pos) ->
  root (exec (Inserts (doPreOrder tree0 node (@record A) [])) tree)
  = plug pos node.
Proof.
  induction node as [|x l r IHl IHr] using ptr_induction;
    intros tree pos strict Hord Hroot Hpos.
  - exact Hroot.
  - assert (Epre : doPreOrder tree0 (addr (Build_Node x l r)) (@record A) []
                   = ([x] ++ doPreOrder tree0 l (@record A) [])
                     ++ doPreOrder tree0 r (@record A) []).
    { cbn [doPreOrder value left right].
      rewrite doPreOrder_record, (doPreOrder_record tree0 l). reflexivity. }
    rewrite Epre, !exec_Inserts_app, exec_Inserts_cons.
    change (exec (Inserts []) (exec (Insert x) tree))
      with (exec (Insert x) tree).
    cbn [ordered value left right] in Hord.
    destruct Hord as (Hl & Hr & Ol & Or).
    rewrite Forall_forall in Hl, Hr.
    assert (Hx : descent tree x pos).
    { apply Hpos. simpl. apply in_or_app. right. now left. }
    unfold exec at 3. rewrite (Insert_at tree x pos Hroot Hx). cbn [snd].
    set (tree1 := Build_Tree _ _ _ _).
    set (tree2 := exec (Inserts (doPreOrder tree0 l (@record A) [])) tree1).
    assert (Hroot2 : root tree2 = plug pos (addr (Build_Node x l nil))).
    { subst tree2.
      rewrite (IHl tree1 (compose pos (InLeft x (Here A) nil))); trivial.
      - now rewrite plug_compose.
      - subst tree1. cbn [root]. now rewrite plug_compose.
      - intros v Hv. apply descent_compose.
        + apply descent_ext with (tree := tree); trivial.
          apply Hpos. simpl. apply in_or_app. now left.
        + subst tree1. simpl. split; trivial. now apply Hl. }
    destruct (Inserts_predicates (doPreOrder tree0 l (@record A) []) tree1)
      as [Hs2 Hl2]. fold tree2 in Hs2, Hl2. cbn [smaller larger tree1] in Hs2, Hl2.
    rewrite (IHr tree2 (compose pos (InRight x l (Here A)))).
    + now rewrite plug_compose.
    + now rewrite Hs2, Hl2.
    + now rewrite Hs2, Hl2.
    + now rewrite Hroot2, plug_compose.
    + intros v Hv. apply descent_compose.
      * apply descent_ext with (tree := tree); trivial.
        apply Hpos. simpl. apply in_or_app. right. now right.
      * simpl. rewrite Hs2, Hl2. specialize (Hr v Hv).
        rewrite Hr. rewrite (larger_converse strict) in Hr.
        rewrite (smaller_asym strict _ _ Hr). auto.
Qed.

(** X23. The pre-order visit rebuilds the tree: on a tree that has the
    ordering invariant under a consistent strict ordering, and whose size
    field counts its nodes (as every tree built by inserts does), inserting
    the values of the pre-order visit, in that order, into an empty tree
    with the same predicates gives back the same tree. *)
Theorem PreOrder_rebuilds (A : Type) (tree : Tree A) :
  StrictOrdering (smaller tree) (larger tree) ->
  ordered (smaller tree) (larger tree) (root tree) ->
  size tree = Z.of_nat (nodes (root tree)) ->
  Z.of_nat (nodes (root tree)) <= GoInt.max_int ->
  build (smaller tree) (larger tree) (visited tree PreOrder) = tree.
Proof.
  intros strict Hord Hsize Hmax.
  assert (Hroot : root (build (smaller tree) (larger tree)
                              (visited tree PreOrder)) = root tree).
  { unfold build, visited, eval, Traverse. cbn [fst].
    change (PreOrder =? PreOrder) with true. cbv iota.
    apply (@Inserts_preorder A tree (root tree)
             (New (smaller tree) (larger tree)) (Here A)); simpl; trivial. }
  assert (Hlen : length (visited tree PreOrder) = nodes (root tree)).
  { unfold visited, eval, Traverse. cbn [fst].
    change (PreOrder =? PreOrder) with true. cbv iota.
    rewrite (Permutation_length (doPreOrder_values tree (root tree))).
    symmetry. apply nodes_length. }
  pose proof (@build_size_nodes A (smaller tree) (larger tree)
                (visited tree PreOrder)) as Hs.
  rewrite Hlen, Hroot in Hs. specialize (Hs Hmax).
  destruct (Inserts_predicates (visited tree PreOrder)
              (New (smaller tree) (larger tree))) as [Es El].
  unfold build in *.
  destruct (exec (Inserts (visited tree PreOrder))
                 (New (smaller tree) (larger tree))) as [rt sm lg sz].
  destruct tree as [rt' sm' lg' sz']. simpl in *. congruence.
Qed.

Lemma PreOrder_rebuilds_witness :
  build IntSmaller IntLarger
        (visited (build IntSmaller IntLarger [20; 10; 30; 25; 5]) PreOrder)
  = build IntSmaller IntLarger [20; 10; 30; 25; 5].
Proof.
  apply (@PreOrder_rebuilds Z (build IntSmaller IntLarger [20; 10; 30; 25; 5])).
  - exact Int_strict.
  - simpl. repeat constructor.
  - reflexivity.
  - vm_compute. discriminate.
Defined.
